(** * holoviews.element.util: [reduce_fn] and [categorical_aggregate2d]

    A shallow embedding of [src/holoviews/element/util.py] and the
    properties of the categorical 2D aggregation stated in the
    specification.

    The operation works on the Dataset API of [holoviews.core], which is
    not part of the sources at hand.  The accessors it calls
    ([dimension_values], [groupby], [concatenate], [aggregate], the
    table constructor) and the helpers [is_nan], [cartesian_product] and
    [sort_topologically] are therefore modelled from the specification;
    each such definition says so.  The numpy calls ([np.sort],
    [np.array_equal], [reshape]) are modelled by their documented
    behaviour. *)

From Stdlib Require Import ZArith QArith Sorted Permutation Lia.
From stdpp Require Import base decidable list strings.

Local Open Scope string_scope.
Local Open Scope list_scope.
Local Open Scope nat_scope.

(** ** Cells and the null marker *)

(** A cell of a value column: the float NaN ([np.NaN]) or a proper value. *)
Inductive cell (A : Type) : Type :=
| NaN
| Num (a : A).
Arguments NaN {A}.
Arguments Num {A} a.

(** Modelled from the spec: [is_nan] of [holoviews.core.util] is not among
    the sources; it tells whether a value is the null marker. *)
Definition is_nan {A} (v : cell A) : bool :=
  match v with
  | NaN => true
  | Num _ => false
  end.

(** [reduce_fn], util.py lines 48-56: scan the values, return the first one
    that is not NaN, and [np.NaN] when the loop ends. *)
Fixpoint reduce_fn {A} (values : list (cell A)) : cell A :=
  match values with
  | [] => NaN
  | v :: rest => if negb (is_nan v) then v else reduce_fn rest
  end.

(** ** numpy helpers *)

(** [np.sort] on a one-dimensional array, as insertion by the order [leb]. *)
Fixpoint sort_insert {K} (leb : K → K → bool) (k : K) (l : list K) : list K :=
  match l with
  | [] => [k]
  | h :: t => if leb k h then k :: l else h :: sort_insert leb k t
  end.

Fixpoint np_sort {K} (leb : K → K → bool) (l : list K) : list K :=
  match l with
  | [] => []
  | h :: t => sort_insert leb h (np_sort leb t)
  end.

(** [np.array_equal] on one-dimensional arrays. *)
Definition array_equal {K} `{EqDecision K} (a b : list K) : bool :=
  bool_decide (a = b).

(** The rows of [arr.reshape((r, c))] once the size is known to fit. *)
Fixpoint take_chunks {K} (r c : nat) (l : list K) : list (list K) :=
  match r with
  | 0 => []
  | S r' => take c l :: take_chunks r' c (drop c l)
  end.

(** [arr.reshape(shape)]: numpy raises when the size is not [r * c]. *)
Definition reshape {K} (shape : nat * nat) (l : list K) : option (list (list K)) :=
  if decide (length l = shape.1 * shape.2)
  then Some (take_chunks shape.1 shape.2 l)
  else None.

(** ** Unique values in first-occurrence order *)

Fixpoint unique_from {K} `{EqDecision K} (seen l : list K) : list K :=
  match l with
  | [] => []
  | k :: l' =>
      if decide (k ∈ seen) then unique_from seen l'
      else k :: unique_from (k :: seen) l'
  end.

(** Modelled from the spec: [dimension_values(dim, False)] of the Dataset
    API, absent from the sources; the unique values of a column,
    "preserving first-occurrence order from the source". *)
Definition unique {K} `{EqDecision K} (l : list K) : list K := unique_from [] l.

(** ** Insertion-ordered dictionaries *)

(** [od[k] = v] on an [OrderedDict]: a key already present keeps its place
    and gets the new value, a new key goes to the end. *)
Fixpoint od_set {K W} `{EqDecision K} (k : K) (v : W) (od : list (K * W)) : list (K * W) :=
  match od with
  | [] => [(k, v)]
  | (k', v') :: od' =>
      if decide (k = k') then (k, v) :: od' else (k', v') :: od_set k v od'
  end.

(** [itertools.chain] over the groups: one list after the other. *)
Definition chain {K} (groups : list (list K)) : list K := concat groups.

(** What a call raises: the [ValueError] of the validation with its
    message, or an error from inside one of the helpers. *)
Inductive exn :=
| ValueError (msg : string)
| HelperError.

Section Aggregate.
Context {X Y A : Type} `{EqDecision X, EqDecision Y}.
(** The natural orders [np.sort] uses on the X and on the Y values. *)
Variable lebX : X → X → bool.
Variable lebY : Y → Y → bool.

(** ** Data model *)

(** A row of a table with at least two dimensions: the cells of the first
    dimension, of the second, and of the remaining ones in order. *)
Record row := Row { row_x : X; row_y : Y; row_vals : list (cell A) }.

(** Storage layout: a list of rows, or coordinate arrays along the two
    axes with one dense 2D array per value dimension. *)
Inductive storage :=
| Tabular (rows : list row)
| Gridded (xcoords : list X) (ycoords : list Y)
          (arrays : list (list (list (cell A)))).

Record Dataset := mkDataset {
  kdims : list string;
  vdims : list string;
  data : storage
}.

(** [obj.interface.gridded] *)
Definition gridded (obj : Dataset) : bool :=
  match data obj with
  | Gridded _ _ _ => true
  | Tabular _ => false
  end.

(** [obj.ndims]: the number of declared key dimensions. *)
Definition ndims (obj : Dataset) : nat := length (kdims obj).

(** [obj.dimensions()]: key dimensions followed by value dimensions. *)
Definition dimensions (obj : Dataset) : list string := kdims obj ++ vdims obj.

Inductive outcome :=
| Returned (d : Dataset)
| Raised (e : exn).

Definition key (r : row) : X * Y := (row_x r, row_y r).

(** The cell of value dimension number [k] in a row. *)
Definition value_at (k : nat) (r : row) : cell A := nth k (row_vals r) NaN.

(** Modelled from the spec: [groupby(xdim, ...).values()] of the Dataset
    API, absent from the sources; "partition rows by X value", one
    partition per unique X value, rows in source order. *)
Definition groupby_x (rows : list row) : list (list row) :=
  map (λ x, filter (λ r, row_x r = x) rows) (unique (map row_x rows)).

(** ** Ordering of the Y values (lines 106-123) *)

(** The [orderings] dictionary: a Y value and the list assigned to it, in
    insertion order. *)
Definition odict := list (Y * list Y).

(** Consecutive pairs [vals[i:i+2]] for [i] in [range(len(vals)-1)]. *)
Fixpoint adjacent (vals : list Y) : list (Y * Y) :=
  match vals with
  | p1 :: ((p2 :: _) as rest) => (p1, p2) :: adjacent rest
  | _ => []
  end.

(** The body of the loop over the groups, lines 112-119, on the pair
    ([is_sorted], [orderings]). *)
Definition scan_group (st : bool * odict) (vals : list Y) : bool * odict :=
  match vals with
  | [v] => (st.1, od_set v [] st.2)
  | _ =>
      (st.1 && array_equal (np_sort lebY vals) vals,
       fold_left (λ od p, od_set p.1 [p.2] od) (adjacent vals) st.2)
  end.

(** Lines 109-119: [is_sorted] starts from the test on the X keys
    [d1keys], [orderings] starts empty, and the groups are scanned in
    order. *)
Definition scan_groups (rows : list row) : bool * odict :=
  let d1keys := unique (map row_x rows) in
  fold_left scan_group (map (map row_y) (groupby_x rows))
            (array_equal (np_sort lebX d1keys) d1keys, []).

Definition is_sorted (rows : list row) : bool := (scan_groups rows).1.
Definition orderings (rows : list row) : odict := (scan_groups rows).2.

(** [q] is recorded as a successor of [p]. *)
Definition has_edge (g : odict) (p q : Y) : Prop :=
  ∃ succs, (p, succs) ∈ g ∧ q ∈ succs.

(** The values of the graph, keys and successors, in the order in which
    they entered the dictionary. *)
Definition graph_nodes (g : odict) : list Y :=
  unique (flat_map (λ e, e.1 :: e.2) g).

(** Some value still waiting has [n] among its successors. *)
Definition blocked (g : odict) (waiting : list Y) (n : Y) : bool :=
  existsb (λ e, bool_decide (e.1 ∈ waiting) && bool_decide (n ∈ e.2)) g.

(** One level per round: the waiting values that no waiting value has as
    a successor.  Every round that goes on removes a value, so as many
    rounds as there are values suffice. *)
Fixpoint topo_levels (fuel : nat) (g : odict) (waiting : list Y)
  : option (list (list Y)) :=
  match waiting, fuel with
  | [], _ => Some []
  | _, 0 => None
  | _, S fuel' =>
      let ready := filter (λ n, blocked g waiting n = false) waiting in
      match ready with
      | [] => None
      | _ => cons ready <$>
             topo_levels fuel' g (filter (λ n, n ∉ ready) waiting)
      end
  end.

(** Modelled from the spec: [sort_topologically] of [holoviews.core.util]
    is not among the sources.  The spec asks for "a topological ordering
    of the precedence graph", one in which a value precedes its recorded
    successors; the caller chains the groups it returns.  The model
    returns the values level by level: first those with no predecessor,
    then those whose predecessors are all in earlier levels, each level in
    the order in which the values entered the dictionary.  On a cycle no
    value is ready and the sort fails. *)
Definition sort_topologically (g : odict) : option (list (list Y)) :=
  topo_levels (length (graph_nodes g)) g (graph_nodes g).

(** Lines 120-123: the global order of the Y values. *)
Definition y_order (rows : list row) : option (list Y) :=
  let d2keys := unique (map row_y rows) in
  if is_sorted rows then Some (np_sort lebY d2keys)
  else chain <$> sort_topologically (orderings rows).

(** ** Padding and aggregation (lines 125-141) *)

(** Modelled from the spec: [cartesian_product] of [holoviews.core.util]
    is not among the sources; the flattened coordinate columns of "the
    full cross product", row-major with the first array as the slow
    axis. *)
Definition cartesian_product (d2keys : list Y) (d1keys : list X)
  : list Y * list X :=
  (flat_map (λ y, map (λ _, y) d1keys) d2keys,
   flat_map (λ _, d1keys) d2keys).

(** The rows of a table given by its columns. *)
Fixpoint zip_rows (xs : list X) (ys : list Y) (vcols : list (list (cell A)))
  : list row :=
  match xs, ys with
  | x :: xs', y :: ys' =>
      Row x y (map (λ c, hd NaN c) vcols) :: zip_rows xs' ys' (map (λ c, tl c) vcols)
  | _, _ => []
  end.

(** Modelled from the spec: the [Dataset] constructor on a dictionary of
    columns, absent from the sources.  A dataset is "a table of rows, each
    row assigning a value to every declared dimension", so columns of
    different lengths make no table and the construction fails. *)
Definition table_of_columns (xs : list X) (ys : list Y)
    (vcols : list (list (cell A))) : option (list row) :=
  if decide (length ys = length xs ∧ Forall (λ c, length c = length xs) vcols)
  then Some (zip_rows xs ys vcols)
  else None.

(** Modelled from the spec: [interface.concatenate] of the Dataset API,
    absent from the sources; the rows of the tables one after the other. *)
Definition concatenate (tables : list (list row)) : list row :=
  foldr app [] tables.

(** Modelled from the spec: [reindex([xdim, ydim]).aggregate([xdim, ydim],
    fn)] of the Dataset API, absent from the sources; one row per
    coordinate pair, in the order the pairs first occur, whose cell for
    each value dimension is [fn] of the cells of the rows sharing the
    pair, in table order. *)
Definition aggregate (fn : list (cell A) → cell A) (nvdims : nat)
    (rows : list row) : list row :=
  map (λ p, Row p.1 p.2
              (map (λ k, fn (map (value_at k) (filter (λ r, key r = p) rows)))
                   (seq 0 nvdims)))
      (unique (map key rows)).

(** The part of [_process] after the validation, lines 96-141, on the row
    list of a tabular input with dimension names [dims]. *)
Definition process_rows (dims : list string) (rows : list row) : outcome :=
  let kd := take 2 dims in
  let vd := drop 2 dims in
  let nvdims := length dims - 2 in
  let d1keys := unique (map row_x rows) in
  let d2keys := unique (map row_y rows) in
  let shape := (length d2keys, length d1keys) in
  let nsamples := shape.1 * shape.2 in
  match y_order rows with
  | None => Raised HelperError
  | Some d2keys' =>
      let (ys, xs) := cartesian_product d2keys' d1keys in
      match table_of_columns xs ys (map (λ _, repeat NaN nsamples) vd) with
      | None => Raised HelperError
      | Some dense_data =>
          let concat_data := concatenate [dense_data; rows] in
          let agg := aggregate reduce_fn nvdims concat_data in
          match mapM (λ k, reshape shape (map (value_at k) agg)) (seq 0 nvdims) with
          | None => Raised HelperError
          | Some arrays => Returned (mkDataset kd vd (Gridded d1keys d2keys' arrays))
          end
      end
  end.

(** [categorical_aggregate2d._process], lines 82-141. *)
Definition categorical_aggregate2d (obj : Dataset) : outcome :=
  match data obj with
  | Gridded _ _ _ => Returned obj
  | Tabular rows =>
      if decide (2 < ndims obj) then
        Raised (ValueError "Cannot aggregate more than two dimensions")
      else if decide (length (dimensions obj) < 3) then
        Raised (ValueError
          "Must have at two dimensions to aggregate overand one value dimension to aggregate on.")
      else process_rows (dimensions obj) rows
  end.

End Aggregate.

Arguments Row {X Y A} _ _ _.
Arguments Tabular {X Y A} _.
Arguments Gridded {X Y A} _ _ _.
Arguments mkDataset {X Y A} _ _ _.
Arguments Returned {X Y A} _.
Arguments Raised {X Y A} _.

(** ** Reading the result *)

Section Grid.
Context {X Y A : Type} `{EqDecision X, EqDecision Y}.
Implicit Types (rows : list (@row X Y A)) (xs : list X) (ys : list Y).
Implicit Types (g : @Dataset X Y A) (od : @odict Y) (dims : list string).

(** What the aggregation computes for value dimension [k] at the
    coordinate pair [(x, y)]: [reduce_fn] over the cells of the input rows
    with that pair, in input order. *)
Definition first_valid (rows : list (@row X Y A)) (k : nat) (x : X) (y : Y) : cell A :=
  reduce_fn (map (value_at k) (filter (λ r, key r = (x, y)) rows)).

(** The dense 2D array of value dimension [k]: one row per Y value, one
    cell per X value. *)
Definition dense_array (rows : list (@row X Y A)) xs ys (k : nat)
  : list (list (cell A)) :=
  map (λ y, map (λ x, first_valid rows k x y) xs) ys.

(** A row of the padded table: every value cell null. *)
Definition nan_row (vd : list string) (x : X) (y : Y) : @row X Y A :=
  Row x y (map (λ _, NaN) vd).

(** The cross product of the coordinates, row-major, Y as the slow axis. *)
Definition pairs xs ys : list (X * Y) :=
  flat_map (λ y, map (λ x, (x, y)) xs) ys.

(** The gridded dataset the operation builds for the Y order [ys]. *)
Definition grid_of (dims : list string) rows (ys : list Y) : @Dataset X Y A :=
  mkDataset (take 2 dims) (drop 2 dims)
    (Gridded (unique (map row_x rows)) ys
       (map (dense_array rows (unique (map row_x rows)) ys) (seq 0 (length dims - 2)))).

(** Keys and successors of the dictionary are all drawn from [S]. *)
Definition od_within (S : Y → Prop) od : Prop :=
  ∀ k succs, (k, succs) ∈ od → S k ∧ ∀ q, q ∈ succs → S q.


(** [p] comes before [q] in the order [l]. *)
Definition precedes (l : list Y) (p q : Y) : Prop :=
  ∃ l1 l2 l3, l = l1 ++ p :: l2 ++ q :: l3.

(** Position of the first occurrence of [a] in a coordinate array. *)
Definition index_of {K} `{EqDecision K} (a : K) (l : list K) : option nat :=
  fst <$> list_find (λ b, b = a) l.

(** The cell a gridded dataset holds for value dimension [k] at the
    coordinate pair [(x, y)]: row [i] and column [j] of the [k]-th array,
    where [i] is the position of [y] and [j] the position of [x] in the
    coordinate arrays. *)
Definition grid_cell g (k : nat) (x : X) (y : Y) : option (cell A) :=
  match data g with
  | Gridded xs ys arrays =>
      j ← index_of x xs; i ← index_of y ys;
      arr ← arrays !! k; line ← arr !! i; line !! j
  | Tabular _ => None
  end.

(** The shape [(rows, columns)] of a 2D array, when every row has the
    same length. *)
Definition has_shape (arr : list (list (cell A))) (shape : nat * nat) : Prop :=
  length arr = shape.1 ∧ Forall (λ line, length line = shape.2) arr.

(** What the specification's sentence on present pairs asks of a grid:
    at the coordinates of every input row, the cells of that row. *)
Definition holds_row_values rows g : Prop :=
  ∀ r k, r ∈ rows → k < length (row_vals r) →
    grid_cell g k (row_x r) (row_y r) = Some (value_at k r).

(** The Y coordinate array of a gridded dataset. *)
Definition ycoords_of g : list Y :=
  match data g with
  | Gridded _ ys _ => ys
  | Tabular _ => []
  end.
End Grid.

(** ** Bin edges: [compute_edges] (util.py lines 33-45) *)

(** What [compute_edges] raises: the [IndexError] of [widths[0]] on an
    empty array of widths, or the [ValueError] of line 43. *)
Inductive edges_exn :=
| IndexError
| BinWidthError (msg : string).

Section Edges.
Context {F : Type}.
(** Float arithmetic is left open: subtraction, addition, division by
    two, and the elementwise test of [np.allclose] (its first argument is
    the width, its second the reference). *)
Variable fsub : F → F → F.
Variable fadd : F → F → F.
Variable fhalf : F → F.
Variable isclose : F → F → bool.

(** [np.diff]: the differences of consecutive entries. *)
Fixpoint np_diff (a : list F) : list F :=
  match a with
  | x :: ((y :: _) as rest) => fsub y x :: np_diff rest
  | _ => []
  end.

(** A call leaves a result or an exception, and the content of the array
    that was passed in: [edges -= width/2.] on line 44 writes into the
    caller's array. *)
Record edges_run := EdgesRun {
  edges_result : edges_exn + list F;
  edges_after : list F
}.

(** [compute_edges], lines 33-45. *)
Definition compute_edges (edges : list F) : edges_run :=
  let widths := np_diff edges in
  match widths with
  | [] => EdgesRun (inl IndexError) edges
  | w0 :: _ =>
      if forallb (λ w, isclose w w0) widths then
        let width := w0 in
        let shifted := map (λ e, fsub e (fhalf width)) edges in
        match last shifted with
        | Some e => EdgesRun (inr (shifted ++ [fadd e width])) shifted
        | None => EdgesRun (inl IndexError) shifted
        end
      else
        EdgesRun (inl (BinWidthError "Centered bins have to be of equal width.")) edges
  end.
End Edges.

(** ** Line segments of a path: [PathPlot.get_data]
    (plotting/mpl/path.py lines 36-55) *)

Section Paths.
(** A row of the stacked array [np.column_stack([xarr, yarr])]: a point. *)
Context {P : Type}.

(** [arr[s:e]] for [0 <= s <= e]. *)
Definition slice (s e : nat) (arr : list P) : list P := take (e - s) (drop s arr).

(** Lines 51-53: one path [arr[s1:s2+1]] for every [(s1, s2)] of
    [zip(range(length-1), range(1, length+1))]. *)
Definition path_segments (arr : list P) : list (list P) :=
  map (λ s, slice s.1 (s.2 + 1) arr)
      (zip (seq 0 (length arr - 1)) (seq 1 (length arr))).

(** Lines 36-55 on the stacked arrays of the split element: each array is
    kept whole without a style mapping and cut into segments with one;
    [invert_axes] replaces every path [p] by [p[::-1]]. *)
Definition collect_paths (style_mapping invert_axes : bool)
    (arrs : list (list P)) : list (list P) :=
  let paths :=
    flat_map (λ arr, if negb style_mapping then [arr] else path_segments arr) arrs in
  if invert_axes then map (λ p, rev p) paths else paths.

(** Joins segments that share their end points back into one path. *)
Definition rejoin (segments : list (list P)) : list P :=
  match segments with
  | [] => []
  | s :: rest => s ++ flat_map (drop 1) rest
  end.
End Paths.

(** ** Concrete tables *)

Module Examples.

Definition table (rows : list (@row string Z Q)) : Dataset :=
  mkDataset ["Country"; "Year"] ["Population"] (Tabular rows).

Definition run := @categorical_aggregate2d string Z Q _ _ String.leb Z.leb.


(** The table of the docstring, lines 71-72. *)
Definition population_rows : list (@row string Z Q) :=
  [Row "USA" 2000%Z [Num (1411 # 5)%Q]; Row "UK" 2005%Z [Num (5889 # 100)%Q]].

Definition population : Dataset := table population_rows.

(** The result the docstring shows, lines 74-76. *)
Definition population_grid : @Dataset string Z Q :=
  mkDataset ["Country"; "Year"] ["Population"]
    (Gridded ["USA"; "UK"] [2000%Z; 2005%Z]
       [[[Num (1411 # 5)%Q; NaN]; [NaN; Num (5889 # 100)%Q]]]).

(** One coordinate pair carried by two rows. *)
Definition repeated_rows : list (@row string Z Q) :=
  [Row "A" 1%Z [Num (5 # 1)%Q]; Row "A" 1%Z [Num (7 # 1)%Q]].

(** Three partitions with the Y sequences 1,3 then 2,1 then 2,3: no
    cycle, and the second is not ascending. *)
Definition overwritten_rows : list (@row string Z Q) :=
  [Row "A" 1%Z [Num (10 # 1)%Q]; Row "A" 3%Z [Num (11 # 1)%Q];
   Row "B" 2%Z [Num (12 # 1)%Q]; Row "B" 1%Z [Num (13 # 1)%Q];
   Row "C" 2%Z [Num (14 # 1)%Q]; Row "C" 3%Z [Num (15 # 1)%Q]].



(** A gridded dataset declaring three key dimensions and no value
    dimension. *)
Definition cube : @Dataset string Z Q :=
  mkDataset ["a"; "b"; "c"] [] (Gridded ["p"] [1%Z] []).

(** A table declaring three key dimensions and one value dimension. *)
Definition three_keys : @Dataset string Z Q :=
  mkDataset ["a"; "b"; "c"] ["v"] (Tabular []).

(** A table with one key and one value dimension. *)
Definition curve : @Dataset string Z Q :=
  mkDataset ["a"] ["v"] (Tabular []).

(** The table of the docstring with only its first dimension declared as
    key dimension. *)
Definition one_key : @Dataset string Z Q :=
  mkDataset ["Country"] ["Year"; "Population"] (Tabular population_rows).

(** [compute_edges] on integers: exact halving, equal widths as closeness. *)
Definition int_edges : list Z → edges_run :=
  compute_edges Z.sub Z.add (λ w, (w / 2)%Z) Z.eqb.

End Examples.

(** * Properties *)

(** ** The reducer *)

Section Reducer.
Context {A : Type}.
Implicit Types (v : cell A) (l : list (cell A)).

Lemma is_nan_true v : is_nan v = true ↔ v = NaN.
Proof. destruct v; simpl; split; congruence. Qed.

Lemma reduce_fn_all_nan l :
  Forall (λ v, is_nan v = true) l → reduce_fn l = NaN.
Proof.
  induction 1 as [|v l Hv _ IH]; simpl; [done|].
  by rewrite Hv.
Qed.

Lemma reduce_fn_skip pre l :
  Forall (λ v, is_nan v = true) pre → reduce_fn (pre ++ l) = reduce_fn l.
Proof.
  induction 1 as [|v pre Hv _ IH]; simpl; [done|].
  by rewrite Hv.
Qed.

Lemma reduce_fn_first pre v post :
  Forall (λ v, is_nan v = true) pre → is_nan v = false →
  reduce_fn (pre ++ v :: post) = v.
Proof.
  intros Hpre Hv. rewrite reduce_fn_skip by done. simpl. by rewrite Hv.
Qed.

Lemma reduce_fn_singleton v : reduce_fn [v] = v.
Proof. by destruct v. Qed.

Lemma Forall_repeat_nan n : Forall (λ v : cell A, is_nan v = true) (repeat NaN n).
Proof. induction n; simpl; by constructor. Qed.

Lemma reduce_fn_padding n l : reduce_fn (repeat NaN n ++ l) = reduce_fn l.
Proof. apply reduce_fn_skip, Forall_repeat_nan. Qed.

(** The result is never a null marker that hides a later proper value. *)
Lemma reduce_fn_nan_inv l :
  reduce_fn l = NaN → Forall (λ v, is_nan v = true) l.
Proof.
  induction l as [|v l IH]; simpl; [constructor|].
  destruct v; simpl; [|done]. intros ?. constructor; auto.
Qed.
End Reducer.

(** ** Unique values *)

Section Unique.
Context {K : Type} `{EqDecision K}.
Implicit Types (l seen : list K).

Lemma elem_of_unique_from seen l x :
  x ∈ unique_from seen l ↔ x ∈ l ∧ x ∉ seen.
Proof.
  revert seen. induction l as [|k l IH]; intros seen; simpl.
  - split; [by intros ?%elem_of_nil | by intros [?%elem_of_nil _]].
  - destruct (decide (k ∈ seen)) as [Hk|Hk].
    + rewrite IH, elem_of_cons. split; [tauto|].
      intros [[->|?] ?]; [done | tauto].
    + rewrite !elem_of_cons, IH, not_elem_of_cons.
      destruct (decide (x = k)) as [->|]; tauto.
Qed.

Lemma elem_of_unique l x : x ∈ unique l ↔ x ∈ l.
Proof.
  unfold unique. rewrite elem_of_unique_from.
  split; [tauto|]. intros ?; split; [done|]. apply not_elem_of_nil.
Qed.

Lemma NoDup_unique_from seen l : NoDup (unique_from seen l).
Proof.
  revert seen. induction l as [|k l IH]; intros seen; simpl.
  - constructor.
  - destruct (decide (k ∈ seen)); [apply IH|].
    constructor; [|apply IH].
    rewrite elem_of_unique_from, not_elem_of_cons. tauto.
Qed.

Lemma NoDup_unique l : NoDup (unique l).
Proof. apply NoDup_unique_from. Qed.

Lemma unique_from_seen seen l :
  (∀ x, x ∈ l → x ∈ seen) → unique_from seen l = [].
Proof.
  induction l as [|k l IH]; intros Hl; simpl; [done|].
  rewrite decide_True by (apply Hl; left).
  apply IH. intros x Hx. apply Hl. by right.
Qed.

(** A duplicate-free prefix is kept as it is, and what follows adds
    nothing when all of it occurs in the prefix. *)
Lemma unique_from_app_NoDup seen l l' :
  NoDup l → (∀ x, x ∈ l → x ∉ seen) →
  (∀ x, x ∈ l' → x ∈ l ∨ x ∈ seen) →
  unique_from seen (l ++ l') = l.
Proof.
  intros Hnd. revert seen. induction Hnd as [|k l Hk Hnd IH]; intros seen Hs Hl'; simpl.
  - apply unique_from_seen. intros x Hx.
    destruct (Hl' x Hx) as [?%elem_of_nil|?]; done.
  - rewrite decide_False by (apply Hs; left).
    f_equal. apply IH.
    + intros x Hx. rewrite not_elem_of_cons. split.
      * intros ->. done.
      * apply Hs. by right.
    + intros x Hx. rewrite elem_of_cons.
      destruct (Hl' x Hx) as [[->|?]%elem_of_cons|?]; auto.
Qed.

Lemma unique_app_NoDup l l' :
  NoDup l → (∀ x, x ∈ l' → x ∈ l) → unique (l ++ l') = l.
Proof.
  intros Hnd Hl'. apply unique_from_app_NoDup; [done| |auto].
  intros x _. apply not_elem_of_nil.
Qed.

Lemma unique_nil_inv l : unique l = [] → l = [].
Proof.
  destruct l as [|k l]; [done|]. intros Hu.
  assert (k ∈ unique (k :: l)) as Hk by (apply elem_of_unique; left).
  rewrite Hu in Hk. by apply elem_of_nil in Hk.
Qed.
End Unique.

(** ** Sorting *)

Section Sorting.
Context {K : Type} (leb : K → K → bool).
Implicit Types (l : list K).

Lemma sort_insert_Permutation k l : sort_insert leb k l ≡ₚ k :: l.
Proof.
  induction l as [|h t IH]; simpl; [done|].
  destruct (leb k h); [done|].
  rewrite IH. apply Permutation_swap.
Qed.

Lemma np_sort_Permutation l : np_sort leb l ≡ₚ l.
Proof.
  induction l as [|h t IH]; simpl; [done|].
  by rewrite sort_insert_Permutation, IH.
Qed.


(** With a total order the result ascends. *)
Lemma sort_insert_Sorted k l :
  (∀ a b, leb a b = true ∨ leb b a = true) →
  Sorted (λ a b, leb a b = true) l →
  Sorted (λ a b, leb a b = true) (sort_insert leb k l).
Proof.
  intros Htot. induction 1 as [|h t Hs IH Hhd]; simpl.
  - repeat constructor.
  - destruct (leb k h) eqn:Hkh.
    + constructor; [by constructor|]. by constructor.
    + constructor; [done|].
      destruct Hhd as [|b t Hhb]; simpl.
      * constructor. destruct (Htot k h); congruence.
      * destruct (leb k b); constructor; [|done].
        destruct (Htot k h); congruence.
Qed.

Lemma np_sort_Sorted l :
  (∀ a b, leb a b = true ∨ leb b a = true) →
  Sorted (λ a b, leb a b = true) (np_sort leb l).
Proof.
  intros Htot. induction l as [|h t IH]; simpl; [constructor|].
  by apply sort_insert_Sorted.
Qed.
End Sorting.

(** ** Lists of lists *)

Section Chunks.
Context {K L : Type}.

Lemma length_flat_map_const (f : K → list L) (m : nat) (l : list K) :
  (∀ a, length (f a) = m) → length (flat_map f l) = length l * m.
Proof.
  intros Hf. induction l as [|a l IH]; simpl; [done|].
  by rewrite length_app, Hf, IH.
Qed.

Lemma take_chunks_flat_map (f : K → list L) (m : nat) (l : list K) :
  (∀ a, length (f a) = m) →
  take_chunks (length l) m (flat_map f l) = map f l.
Proof.
  intros Hf. induction l as [|a l IH]; simpl; [done|].
  rewrite take_app_length' by (symmetry; apply Hf).
  rewrite drop_app_length' by (symmetry; apply Hf).
  by rewrite IH.
Qed.

Lemma map_flat_map {M} (g : L → M) (f : K → list L) (l : list K) :
  map g (flat_map f l) = flat_map (λ a, map g (f a)) l.
Proof.
  induction l as [|a l IH]; simpl; [done|].
  by rewrite map_app, IH.
Qed.

Lemma filter_iff_on (P Q : K → Prop) `{∀ a, Decision (P a), ∀ a, Decision (Q a)}
    (l : list K) :
  (∀ a, a ∈ l → P a ↔ Q a) → filter P l = filter Q l.
Proof.
  induction l as [|a l IH]; intros HPQ; [done|].
  rewrite !filter_cons.
  rewrite IH by (intros b Hb; apply HPQ; by right).
  destruct (decide (P a)) as [HP|HP], (decide (Q a)) as [HQ|HQ]; try done.
  - destruct HQ. apply HPQ; [left|done].
  - destruct HP. apply HPQ; [left|done].
Qed.

Lemma mapM_total (f : K → option L) (g : K → L) (l : list K) :
  (∀ a, a ∈ l → f a = Some (g a)) → mapM f l = Some (map g l).
Proof.
  intros Hf. apply mapM_Some_2.
  induction l as [|a l IH]; simpl; constructor.
  - apply Hf. left.
  - apply IH. intros b Hb. apply Hf. by right.
Qed.
End Chunks.

(** ** Padding, concatenation and aggregation *)

Section Padding.
Context {X Y A : Type} `{EqDecision X, EqDecision Y}.
Implicit Types (rows : list (@row X Y A)) (xs : list X) (ys : list Y).

Lemma cartesian_product_lengths ys xs :
  length (cartesian_product ys xs).1 = length ys * length xs ∧
  length (cartesian_product ys xs).2 = length ys * length xs.
Proof.
  unfold cartesian_product; simpl. split; apply length_flat_map_const; [|done].
  intros a. by rewrite length_map.
Qed.

Lemma zip_rows_nan (vd : list string) n xs (l : list Y) :
  zip_rows xs l (map (λ _, repeat (@NaN A) n) vd) = zip_with (nan_row (A:=A) vd) xs l.
Proof.
  revert l n. induction xs as [|x xs IH]; intros [|y l] n; simpl; try done.
  unfold nan_row at 1. f_equal.
  - f_equal. rewrite map_map. apply map_ext. intros _. by destruct n.
  - rewrite map_map. rewrite <-(IH l (pred n)). f_equal.
    apply map_ext. intros _. by destruct n.
Qed.

Lemma zip_with_const_r (vd : list string) xs (y : Y) :
  zip_with (nan_row (A:=A) vd) xs (map (λ _, y) xs) = map (λ x, nan_row (A:=A) vd x y) xs.
Proof. induction xs as [|x xs IH]; simpl; [done|]. by rewrite IH. Qed.

(** The padded table lists the cross product row-major, Y as the slow
    axis, every value cell null. *)
Lemma dense_rows (vd : list string) n xs ys :
  zip_rows (cartesian_product ys xs).2 (cartesian_product ys xs).1
           (map (λ _, repeat (@NaN A) n) vd)
  = flat_map (λ y, map (λ x, nan_row (A:=A) vd x y) xs) ys.
Proof.
  rewrite zip_rows_nan. unfold cartesian_product; simpl.
  induction ys as [|y ys IH]; simpl; [done|].
  rewrite zip_with_app by (by rewrite length_map).
  by rewrite zip_with_const_r, IH.
Qed.

Lemma elem_of_pairs xs ys x y : (x, y) ∈ pairs xs ys ↔ x ∈ xs ∧ y ∈ ys.
Proof.
  unfold pairs. rewrite list_elem_of_In, in_flat_map. split.
  - intros (y' & Hy' & Hin). apply in_map_iff in Hin as (x' & [= -> ->] & Hx').
    by rewrite !list_elem_of_In.
  - intros [Hx Hy]. exists y. rewrite <-list_elem_of_In. split; [done|].
    apply in_map_iff. exists x. by rewrite <-list_elem_of_In.
Qed.

Lemma NoDup_pairs xs ys : NoDup xs → NoDup ys → NoDup (pairs xs ys).
Proof.
  intros Hxs Hys. unfold pairs.
  induction Hys as [|y ys Hy Hys IH]; simpl; [constructor|].
  apply NoDup_app. split_and!.
  - apply NoDup_fmap_2; [|done]. intros a b. congruence.
  - intros [x' y'] Hin Hin'.
    apply list_elem_of_fmap in Hin as (x & [= -> ->] & _).
    apply elem_of_pairs in Hin' as [_ ?]. done.
  - apply IH.
Qed.

Lemma key_dense (vd : list string) xs ys :
  map key (flat_map (λ y, map (λ x, nan_row (A:=A) vd x y) xs) ys) = pairs xs ys.
Proof.
  unfold pairs. induction ys as [|y ys IH]; simpl; [done|].
  by rewrite map_app, map_map, IH.
Qed.

Lemma dense_values_nan (vd : list string) xs ys k (P : @row X Y A → Prop)
    `{∀ r, Decision (P r)} :
  Forall (λ v, is_nan v = true)
    (map (value_at k) (filter P (flat_map (λ y, map (λ x, nan_row (A:=A) vd x y) xs) ys))).
Proof.
  apply Forall_forall. intros v Hv.
  apply list_elem_of_fmap in Hv as (r & -> & Hr).
  apply list_elem_of_filter in Hr as [_ Hr].
  apply list_elem_of_In, in_flat_map in Hr as (y & _ & Hr).
  apply in_map_iff in Hr as (x & <- & _).
  unfold value_at, nan_row; simpl.
  clear. revert k. induction vd as [|d vd IH]; intros [|k]; simpl; auto.
Qed.

Lemma filter_same_key {K} `{EqDecision K} (f : @row X Y A → K) (rows : list (@row X Y A)) r :
  NoDup (map f rows) → r ∈ rows → filter (λ r', f r' = f r) rows = [r].
Proof.
  induction rows as [|r0 rows IH]; simpl; [by intros _ ?%elem_of_nil|].
  intros [Hr0 Hnd]%NoDup_cons [->|Hr]%elem_of_cons.
  - rewrite filter_cons_True by done. f_equal.
    clear IH. induction rows as [|r1 rows IH]; [done|].
    rewrite filter_cons_False.
    + apply IH.
      * intros ?. apply Hr0. by right.
      * by apply NoDup_cons in Hnd as [_ ?].
    + intros Heq. apply Hr0. rewrite <-Heq. left.
  - rewrite filter_cons_False; [by apply IH|].
    intros Heq. apply Hr0. rewrite Heq. apply list_elem_of_fmap. eauto.
Qed.

(** Aggregating the padded table followed by the input rows gives one row
    per pair of the cross product, holding [first_valid] of the input
    rows: the padding never hides a value. *)
Lemma aggregate_padded (vd : list string) nv rows xs ys :
  NoDup xs → NoDup ys →
  (∀ r, r ∈ rows → row_x r ∈ xs ∧ row_y r ∈ ys) →
  aggregate reduce_fn nv
    (concatenate [flat_map (λ y, map (λ x, nan_row (A:=A) vd x y) xs) ys; rows])
  = map (λ p, Row p.1 p.2 (map (λ k, first_valid rows k p.1 p.2) (seq 0 nv)))
        (pairs xs ys).
Proof.
  intros Hxs Hys Hrows. unfold aggregate, concatenate. simpl.
  rewrite app_nil_r, map_app, key_dense.
  rewrite unique_app_NoDup; [|by apply NoDup_pairs|].
  - apply map_ext. intros [x y]; simpl. f_equal.
    apply map_ext. intros k.
    rewrite filter_app, map_app. unfold first_valid.
    apply reduce_fn_skip, dense_values_nan.
  - intros [x y] Hin. apply list_elem_of_fmap in Hin as (r & Hr & Hin).
    apply elem_of_pairs. unfold key in Hr. injection Hr as -> ->. auto.
Qed.

Lemma value_at_aggregated (G : nat → cell A) nv k (x : X) (y : Y) :
  k < nv → value_at k (Row x y (map G (seq 0 nv))) = G k.
Proof.
  intros Hk. unfold value_at; simpl.
  rewrite (nth_indep _ NaN (G 0)) by (by rewrite length_map, length_seq).
  rewrite (map_nth G (seq 0 nv) 0 k). by rewrite seq_nth.
Qed.

Lemma reshape_column rows xs ys k r :
  r = length ys →
  reshape (r, length xs) (map (λ p, first_valid rows k p.1 p.2) (pairs xs ys))
  = Some (dense_array rows xs ys k).
Proof.
  intros ->. unfold reshape, pairs, dense_array; simpl.
  rewrite map_flat_map.
  rewrite decide_True.
  - f_equal.
    rewrite (take_chunks_flat_map _ (length xs)).
    + apply map_ext. intros y. by rewrite map_map.
    + intros y. by rewrite !length_map.
  - apply length_flat_map_const. intros y. by rewrite !length_map.
Qed.
End Padding.

(** ** The aggregation once the Y order is known *)

Section Process.
Context {X Y A : Type} `{EqDecision X, EqDecision Y}.
Variable lebX : X → X → bool.
Variable lebY : Y → Y → bool.
Implicit Types (rows : list (@row X Y A)) (obj : @Dataset X Y A).

Lemma table_of_padding (vd : list string) n xs (ys : list Y) :
  n = length ys * length xs →
  table_of_columns (cartesian_product ys xs).2 (cartesian_product ys xs).1
                   (map (λ _, repeat NaN n) vd)
  = Some (flat_map (λ y, map (λ x, @nan_row X Y A vd x y) xs) ys).
Proof.
  intros ->. unfold table_of_columns.
  destruct (cartesian_product_lengths ys xs) as [H1 H2].
  rewrite decide_True; [by rewrite dense_rows|].
  split; [congruence|].
  apply Forall_forall. intros c Hc.
  apply list_elem_of_fmap in Hc as (d & -> & _).
  by rewrite repeat_length, H2.
Qed.

Lemma process_rows_returns dims rows ys :
  y_order lebX lebY rows = Some ys →
  ys ≡ₚ unique (map row_y rows) →
  process_rows lebX lebY dims rows = Returned (grid_of dims rows ys).
Proof.
  intros Hy Hperm. unfold process_rows. rewrite Hy.
  assert (length ys = length (unique (map row_y rows))) as Hlen by (by rewrite Hperm).
  assert (NoDup ys) as Hnd by (rewrite Hperm; apply NoDup_unique).
  destruct (cartesian_product ys (unique (map row_x rows))) as [cy cx] eqn:Hcp.
  change cy with (cy, cx).1. change cx with (cy, cx).2 at 1. rewrite <-Hcp.
  cbn [fst snd].
  rewrite table_of_padding by (by rewrite Hlen).
  rewrite aggregate_padded; [|apply NoDup_unique|done|].
  2:{ intros r Hr. split.
      - apply elem_of_unique, list_elem_of_fmap. eauto.
      - rewrite Hperm. apply elem_of_unique, list_elem_of_fmap. eauto. }
  erewrite (mapM_total _ (dense_array rows (unique (map row_x rows)) ys)); [done|].
  intros k Hk. apply elem_of_seq in Hk as [_ Hk]. simpl in Hk.
  rewrite map_map.
  rewrite (map_ext _ (λ p : X * Y, first_valid rows k p.1 p.2)).
  - apply reshape_column. by rewrite Hlen.
  - intros [x y]. cbn [fst snd].
    by rewrite (value_at_aggregated (λ k, first_valid rows k x y)).
Qed.
End Process.

(** ** The Y order *)

Section Ordering.
Context {X Y A : Type} `{EqDecision X, EqDecision Y}.
Variable lebX : X → X → bool.
Variable lebY : Y → Y → bool.
Implicit Types (rows : list (@row X Y A)) (g od : @odict Y) (vals : list Y).

Lemma od_set_within (S : Y → Prop) k v od :
  od_within S od → S k → (∀ q, q ∈ v → S q) → od_within S (od_set k v od).
Proof.
  intros Hod Hk Hv. induction od as [|[k' v'] od IH]; simpl.
  - intros a b [= -> ->]%list_elem_of_singleton. auto.
  - assert (od_within S od) as Htl.
    { intros a b Hab. apply Hod. by right. }
    destruct (decide (k = k')) as [->|Hne].
    + intros a b [[= -> ->]|Hab]%elem_of_cons; [auto|]. by apply Htl.
    + intros a b [[= -> ->]|Hab]%elem_of_cons.
      * apply Hod. left.
      * by apply IH.
Qed.

Lemma elem_of_adjacent vals p q : (p, q) ∈ adjacent vals → p ∈ vals ∧ q ∈ vals.
Proof.
  induction vals as [|a [|b vals] IH]; simpl.
  - by intros ?%elem_of_nil.
  - by intros ?%elem_of_nil.
  - intros [[= -> ->]|Hin]%elem_of_cons.
    + split; [left | right; left].
    + destruct (IH Hin). split; by right.
Qed.

Lemma fold_od_set_within (S : Y → Prop) (ps : list (Y * Y)) od :
  od_within S od → (∀ p, p ∈ ps → S p.1 ∧ S p.2) →
  od_within S (fold_left (λ od p, od_set p.1 [p.2] od) ps od).
Proof.
  revert od. induction ps as [|p ps IH]; intros od Hod Hps; simpl; [done|].
  apply IH.
  - destruct (Hps p) as [H1 H2]; [left|].
    apply od_set_within; [done..|]. by intros q ->%list_elem_of_singleton.
  - intros q Hq. apply Hps. by right.
Qed.

Lemma scan_group_within (S : Y → Prop) st vals :
  od_within S st.2 → (∀ v, v ∈ vals → S v) →
  od_within S (scan_group lebY st vals).2.
Proof.
  intros Hod Hvals.
  assert (od_within S
            (fold_left (λ od p, od_set p.1 [p.2] od) (adjacent vals) st.2)) as Hfold.
  { apply fold_od_set_within; [done|].
    intros [p q] [??]%elem_of_adjacent. auto. }
  destruct vals as [|v [|w vals]]; simpl; try done.
  apply od_set_within; [done| |by intros ? ?%elem_of_nil].
  apply Hvals. left.
Qed.

Lemma scan_groups_within (S : Y → Prop) (groups : list (list Y)) st :
  od_within S st.2 → (∀ vals v, vals ∈ groups → v ∈ vals → S v) →
  od_within S (fold_left (scan_group lebY) groups st).2.
Proof.
  revert st. induction groups as [|vals groups IH]; intros st Hst Hg; simpl; [done|].
  apply IH.
  - apply scan_group_within; [done|]. intros v. apply Hg. left.
  - intros vals' v Hin. apply Hg. by right.
Qed.

Lemma elem_of_groupby_x rows grp r :
  grp ∈ groupby_x rows → r ∈ grp → r ∈ rows.
Proof.
  unfold groupby_x. intros (x & -> & _)%list_elem_of_fmap.
  by intros [_ ?]%list_elem_of_filter.
Qed.

(** Whatever the loop records, keys and successors are Y values of the
    input. *)
Lemma orderings_within rows :
  od_within (λ y, y ∈ map row_y rows) (orderings lebX lebY rows).
Proof.
  unfold orderings, scan_groups. apply scan_groups_within.
  - by intros k succs ?%elem_of_nil.
  - intros vals v (grp & -> & Hgrp)%list_elem_of_fmap (r & -> & Hr)%list_elem_of_fmap.
    apply list_elem_of_fmap. exists r. split; [done|].
    eapply elem_of_groupby_x; eauto.
Qed.

Lemma graph_nodes_within (S : Y → Prop) g y :
  od_within S g → y ∈ graph_nodes g → S y.
Proof.
  intros Hg. unfold graph_nodes. rewrite elem_of_unique, list_elem_of_In, in_flat_map.
  intros ([k succs] & Hin%list_elem_of_In & Hy%list_elem_of_In).
  destruct (Hg _ _ Hin) as [Hk Hs].
  simpl in Hy. apply elem_of_cons in Hy as [->|Hy]; auto.
Qed.

(** The levels hold the waiting values, each once. *)
Lemma topo_levels_Permutation fuel g waiting levels :
  topo_levels fuel g waiting = Some levels → chain levels ≡ₚ waiting.
Proof.
  revert waiting levels. induction fuel as [|fuel IH]; intros waiting levels.
  - destruct waiting; simpl; [|done]. by intros [= <-].
  - destruct waiting as [|w waiting']; [by intros [= <-]|].
    remember (w :: waiting') as waiting eqn:Hw.
    assert (topo_levels (S fuel) g waiting =
            let ready := filter (λ n, blocked g waiting n = false) waiting in
            match ready with
            | [] => None
            | _ => cons ready <$>
                   topo_levels fuel g (filter (λ n, n ∉ ready) waiting)
            end) as -> by (by subst waiting).
    clear Hw w waiting'. cbv zeta.
    set (ready := filter (λ n, blocked g waiting n = false) waiting).
    intros Hl.
    assert (cons ready <$>
              topo_levels fuel g (filter (λ n, n ∉ ready) waiting) = Some levels)
      as Hl' by (destruct ready; [done|exact Hl]).
    clear Hl. apply fmap_Some in Hl' as (rest & Hrest & ->).
    apply IH in Hrest. unfold chain in *. simpl. rewrite Hrest.
    etrans; [|apply (filter_app_complement (λ n, blocked g waiting n = false))].
    fold ready. f_equiv.
    rewrite (filter_iff_on (λ n, n ∉ ready) (λ n, ¬ blocked g waiting n = false)); [done|].
    intros n Hn. unfold ready.
    rewrite list_elem_of_filter. tauto.
Qed.

Lemma blocked_by_edge g waiting p q :
  has_edge g p q → p ∈ waiting → blocked g waiting q = true.
Proof.
  intros (succs & Hin & Hq) Hp. unfold blocked.
  apply existsb_exists. exists (p, succs). split; [by apply list_elem_of_In|].
  simpl. by rewrite !bool_decide_eq_true_2.
Qed.

(** The model is a topological sort: a value comes before each of its
    recorded successors. *)
Lemma topo_levels_precedes fuel g waiting levels p q :
  topo_levels fuel g waiting = Some levels →
  has_edge g p q → p ∈ waiting → q ∈ waiting →
  precedes (chain levels) p q.
Proof.
  revert waiting levels. induction fuel as [|fuel IH]; intros waiting levels.
  - destruct waiting; simpl; [|done]. by intros _ _ ?%elem_of_nil.
  - destruct waiting as [|w waiting']; [by intros _ _ ?%elem_of_nil|].
    remember (w :: waiting') as waiting eqn:Hw.
    assert (topo_levels (S fuel) g waiting =
            let ready := filter (λ n, blocked g waiting n = false) waiting in
            match ready with
            | [] => None
            | _ => cons ready <$>
                   topo_levels fuel g (filter (λ n, n ∉ ready) waiting)
            end) as -> by (by subst waiting).
    clear Hw w waiting'. cbv zeta.
    set (ready := filter (λ n, blocked g waiting n = false) waiting).
    intros Hl Hedge Hp Hq.
    assert (cons ready <$>
              topo_levels fuel g (filter (λ n, n ∉ ready) waiting) = Some levels)
      as Hl' by (destruct ready; [done|exact Hl]).
    clear Hl. apply fmap_Some in Hl' as (rest & Hrest & ->).
    assert (q ∉ ready) as Hq'.
    { unfold ready. rewrite list_elem_of_filter. intros [Hb _].
      rewrite (blocked_by_edge g waiting p q) in Hb; done. }
    assert (q ∈ filter (λ n, n ∉ ready) waiting) as Hq''
      by (by apply list_elem_of_filter).
    unfold chain; simpl. fold (chain rest).
    destruct (decide (p ∈ ready)) as [Hp'|Hp'].
    + apply topo_levels_Permutation in Hrest.
      rewrite <-Hrest in Hq''.
      apply list_elem_of_split in Hp' as (l1 & l2 & ->).
      apply list_elem_of_split in Hq'' as (m1 & m2 & ->).
      exists l1, (l2 ++ m1), m2. by rewrite <-!app_assoc.
    + destruct (IH _ _ Hrest Hedge) as (l1 & l2 & l3 & ->);
        [by apply list_elem_of_filter|done|].
      exists (ready ++ l1), l2, l3. by rewrite <-app_assoc.
Qed.

Lemma sort_topologically_precedes g levels p q :
  sort_topologically g = Some levels → has_edge g p q →
  precedes (chain levels) p q.
Proof.
  intros Hl Hedge. eapply topo_levels_precedes; [exact Hl|done| |].
  - destruct Hedge as (succs & Hin & _).
    unfold graph_nodes. apply elem_of_unique, list_elem_of_In, in_flat_map.
    exists (p, succs). split; [by apply list_elem_of_In|]. by left.
  - destruct Hedge as (succs & Hin & Hq).
    unfold graph_nodes. apply elem_of_unique, list_elem_of_In, in_flat_map.
    exists (p, succs). split; [by apply list_elem_of_In|].
    right. by apply list_elem_of_In.
Qed.

Lemma sort_topologically_Permutation g levels :
  sort_topologically g = Some levels → chain levels ≡ₚ graph_nodes g.
Proof. apply topo_levels_Permutation. Qed.


Lemma y_order_within rows ys :
  y_order lebX lebY rows = Some ys →
  NoDup ys ∧ ∀ y, y ∈ ys → y ∈ unique (map row_y rows).
Proof.
  unfold y_order. destruct (is_sorted lebX lebY rows).
  - intros [= <-]. split.
    + rewrite np_sort_Permutation. apply NoDup_unique.
    + intros y. by rewrite np_sort_Permutation.
  - intros (levels & Hl & ->)%fmap_Some.
    apply sort_topologically_Permutation in Hl. split.
    + rewrite Hl. apply NoDup_unique.
    + intros y. rewrite Hl, elem_of_unique. intros Hy.
      eapply (graph_nodes_within (λ y, y ∈ map row_y rows)); [|done].
      apply orderings_within.
Qed.

Lemma y_order_empty : y_order lebX lebY (@nil (@row X Y A)) = Some [].
Proof. reflexivity. Qed.
End Ordering.

(** ** Reading a gridded dataset by coordinates *)

Section Reading.
Context {X Y A : Type} `{EqDecision X, EqDecision Y}.
Variable lebX : X → X → bool.
Variable lebY : Y → Y → bool.
Implicit Types (rows : list (@row X Y A)) (obj g : @Dataset X Y A).

Lemma index_of_elem {K} `{EqDecision K} (a : K) (l : list K) :
  a ∈ l → ∃ i, index_of a l = Some i ∧ l !! i = Some a.
Proof.
  intros Ha. unfold index_of.
  destruct (list_find_elem_of (λ b, b = a) l a Ha eq_refl) as [[i b] Hf].
  rewrite Hf. exists i. split; [done|].
  apply list_find_Some in Hf as (Hi & -> & _). done.
Qed.

Lemma grid_cell_grid_of (dims : list string) rows ys k x y :
  k < length dims - 2 → x ∈ unique (map row_x rows) → y ∈ ys →
  grid_cell (grid_of dims rows ys) k x y = Some (first_valid rows k x y).
Proof.
  intros Hk Hx Hy. unfold grid_cell, grid_of; simpl.
  destruct (index_of_elem x _ Hx) as (j & -> & Hj).
  destruct (index_of_elem y _ Hy) as (i & -> & Hi). simpl.
  rewrite list_lookup_fmap, lookup_seq_lt by done. simpl.
  unfold dense_array.
  rewrite list_lookup_fmap, Hi. simpl.
  by rewrite list_lookup_fmap, Hj.
Qed.

Lemma dense_array_shape rows xs ys k :
  has_shape (dense_array rows xs ys k) (length ys, length xs).
Proof.
  unfold has_shape, dense_array; simpl. split; [by rewrite length_map|].
  apply Forall_forall. intros line (y & -> & _)%list_elem_of_fmap.
  by rewrite length_map.
Qed.

(** A call on rows that returns went through a Y order holding every
    unique Y value once, and returns the grid built for that order. *)
Lemma process_rows_inv (dims : list string) rows g :
  3 ≤ length dims →
  process_rows lebX lebY dims rows = Returned g →
  ∃ ys, y_order lebX lebY rows = Some ys ∧
        ys ≡ₚ unique (map row_y rows) ∧ g = grid_of dims rows ys.
Proof.
  intros Hd Hret. destruct (y_order lebX lebY rows) as [ys|] eqn:Hy.
  2:{ unfold process_rows in Hret. by rewrite Hy in Hret. }
  exists ys. split; [done|].
  assert (ys ≡ₚ unique (map row_y rows)) as Hperm.
  { destruct (y_order_within _ _ _ _ Hy) as [Hnd Hsub].
    apply submseteq_length_Permutation; [by apply NoDup_submseteq|].
    destruct rows as [|r rows'].
    { rewrite y_order_empty in Hy. by injection Hy as <-. }
    unfold process_rows in Hret. rewrite Hy in Hret.
    destruct (cartesian_product_lengths ys (unique (map row_x (r :: rows'))))
      as [_ Hlen].
    destruct (cartesian_product ys (unique (map row_x (r :: rows'))))
      as [cy cx] eqn:Hcp.
    destruct (table_of_columns cx cy _) as [dense|] eqn:Ht; [|done].
    unfold table_of_columns in Ht.
    destruct (decide _) as [[_ Hf]|]; [|done].
    destruct (drop 2 dims) as [|d vd] eqn:Hdrop.
    { apply (f_equal length) in Hdrop. rewrite length_drop in Hdrop.
      simpl in Hdrop. lia. }
    apply Forall_cons in Hf as [Hf _]. rewrite repeat_length in Hf.
    cbn [fst snd] in Hf, Hlen. rewrite Hlen in Hf.
    assert (0 < length (unique (map row_x (r :: rows')))) as Hpos.
    { destruct (unique (map row_x (r :: rows'))) eqn:Hu; simpl; [|lia].
      by apply unique_nil_inv in Hu. }
    revert Hf Hpos.
    generalize (length (unique (map row_x (r :: rows')))),
               (length (unique (map row_y (r :: rows')))), (length ys).
    intros. nia. }
  split; [done|].
  rewrite (process_rows_returns _ _ dims rows ys Hy Hperm) in Hret.
  by injection Hret.
Qed.
End Reading.

(** ** The operation *)

Section Operation.
Context {X Y A : Type} `{EqDecision X, EqDecision Y}.
Variable lebX : X → X → bool.
Variable lebY : Y → Y → bool.
Implicit Types (rows : list (@row X Y A)) (obj g : @Dataset X Y A).

Local Abbreviation aggregate2d := (categorical_aggregate2d lebX lebY).

Lemma aggregate2d_tabular obj rows :
  data obj = Tabular rows → length (kdims obj) = 2 → 1 ≤ length (vdims obj) →
  aggregate2d obj = process_rows lebX lebY (dimensions obj) rows
  ∧ 3 ≤ length (dimensions obj)
  ∧ length (dimensions obj) - 2 = length (vdims obj).
Proof.
  intros Hdata Hk Hv. unfold categorical_aggregate2d, ndims, dimensions.
  rewrite Hdata, length_app, Hk.
  rewrite decide_False by lia. rewrite decide_False by lia.
  split_and!; [done|lia..].
Qed.

Lemma first_valid_absent rows k x y :
  (∀ r, r ∈ rows → key r ≠ (x, y)) → first_valid rows k x y = NaN.
Proof.
  intros Hno. unfold first_valid.
  destruct (filter (λ r, key r = (x, y)) rows) as [|r l] eqn:Hf; [done|].
  assert (r ∈ filter (λ r, key r = (x, y)) rows) as Hr by (rewrite Hf; left).
  apply list_elem_of_filter in Hr as [Hkey Hr]. by destruct (Hno r Hr).
Qed.

(** When does a call on a valid table return?  Exactly when the ordering
    step yields every unique Y value once. *)
Lemma aggregate2d_returns_iff obj rows :
  data obj = Tabular rows → length (kdims obj) = 2 → 1 ≤ length (vdims obj) →
  (∃ g, aggregate2d obj = Returned g) ↔
  (∃ ys, y_order lebX lebY rows = Some ys ∧ ys ≡ₚ unique (map row_y rows)).
Proof.
  intros Hdata Hk Hv.
  destruct (aggregate2d_tabular obj rows Hdata Hk Hv) as (-> & Hd & _).
  split.
  - intros [g Hg]. apply process_rows_inv in Hg as (ys & ? & ? & _); eauto.
  - intros (ys & Hy & Hp). eexists. by apply process_rows_returns.
Qed.

(** Every dataset the operation returns is gridded, so a second
    application leaves it as it is. *)
Lemma aggregate2d_idempotent obj g :
  aggregate2d obj = Returned g → aggregate2d g = Returned g.
Proof.
  unfold categorical_aggregate2d at 1.
  destruct (data obj) as [rows|xs ys arrays] eqn:Hdata.
  - repeat (destruct (decide _); [done|]).
    unfold process_rows. destruct (y_order _ _ _); [|done].
    destruct (cartesian_product _ _). destruct (table_of_columns _ _ _); [|done].
    destruct (mapM _ _); [|done]. by intros [= <-].
  - intros [= <-]. unfold categorical_aggregate2d. by rewrite Hdata.
Qed.
End Operation.

(** * The claims *)

Section Claims.
Context {X Y A : Type} `{EqDecision X, EqDecision Y}.
Variable lebX : X → X → bool.
Variable lebY : Y → Y → bool.
Implicit Types (rows : list (@row X Y A)) (obj g : @Dataset X Y A).

Local Abbreviation aggregate2d := (categorical_aggregate2d lebX lebY).

(** C1, as amended.  For a table with two key dimensions and at least one
    value dimension, the call returns exactly when the ordering step
    yields every unique Y value once, and the returned grid holds, for
    every value dimension and every pair of an X and a Y value of the
    input, [reduce_fn] of the cells of the input rows with that pair: the
    first cell that is not NaN.  So a pair carried by a single row holds
    that row's cell, and a pair that occurs in no row holds NaN. *)
Theorem C1_grid_holds_first_valid obj rows :
  data obj = Tabular rows → length (kdims obj) = 2 →
  1 ≤ length (vdims obj) →
  ((∃ g, aggregate2d obj = Returned g) ↔
   (∃ ys, y_order lebX lebY rows = Some ys ∧ ys ≡ₚ unique (map row_y rows)))
  ∧ ∀ g, aggregate2d obj = Returned g →
    ∀ k x y, k < length (vdims obj) → x ∈ map row_x rows → y ∈ map row_y rows →
      grid_cell g k x y = Some (first_valid rows k x y)
      ∧ (∀ r, filter (λ r, key r = (x, y)) rows = [r] →
              grid_cell g k x y = Some (value_at k r))
      ∧ ((∀ r, r ∈ rows → key r ≠ (x, y)) → grid_cell g k x y = Some NaN).
Proof.
  intros Hdata Hk Hv. split; [by apply aggregate2d_returns_iff|].
  intros g Hg k x y Hkv Hx Hy.
  destruct (aggregate2d_tabular lebX lebY obj rows Hdata Hk Hv) as (Hrun & Hd & Hnv).
  rewrite Hrun in Hg. apply process_rows_inv in Hg as (ys & _ & Hperm & ->); [|done].
  assert (grid_cell (grid_of (dimensions obj) rows ys) k x y
          = Some (first_valid rows k x y)) as Hcell.
  { apply grid_cell_grid_of; [lia|by apply elem_of_unique|].
    rewrite Hperm. by apply elem_of_unique. }
  split_and!; [done| |].
  - intros r Hr. rewrite Hcell. unfold first_valid. rewrite Hr. cbn [map].
    by rewrite reduce_fn_singleton.
  - intros Hno. by rewrite Hcell, first_valid_absent.
Qed.



(** C5.  [reduce_fn] returns NaN on values that are all NaN and otherwise
    the first value that is not NaN.  On a valid table whose Y order holds
    every unique Y value once, the operation builds the padded table of
    line 133 with NaN in every value cell, aggregates the concatenation of
    that table followed by the input rows with [reduce_fn] (lines 134-135)
    and returns the reshaped columns.  In the concatenated table the rows
    of a coordinate pair are the padding row and then the input rows with
    the pair, so the cell returned for the pair is the first value of the
    input rows that is not NaN: data values override the padding. *)
Theorem C5_first_non_null (values : list (cell A)) obj rows (ys : list Y) :
  (Forall (λ v, is_nan v = true) values → reduce_fn values = NaN)
  ∧ (∀ pre v post, values = pre ++ v :: post →
       Forall (λ v, is_nan v = true) pre → is_nan v = false →
       reduce_fn values = v)
  ∧ (data obj = Tabular rows → length (kdims obj) = 2 →
     1 ≤ length (vdims obj) →
     y_order lebX lebY rows = Some ys → ys ≡ₚ unique (map row_y rows) →
     let d1keys := unique (map row_x rows) in
     let d2keys := unique (map row_y rows) in
     let shape := (length d2keys, length d1keys) in
     let nvdims := length (dimensions obj) - 2 in
     ∃ dense_data arrays,
       table_of_columns (cartesian_product ys d1keys).2
                        (cartesian_product ys d1keys).1
                        (map (λ _, repeat NaN (shape.1 * shape.2))
                             (drop 2 (dimensions obj)))
       = Some dense_data
       ∧ Forall (λ r, Forall (λ v, is_nan v = true) (row_vals r)) dense_data
       ∧ mapM (λ k, reshape shape
                      (map (value_at k)
                           (aggregate reduce_fn nvdims
                                      (concatenate [dense_data; rows]))))
              (seq 0 nvdims)
         = Some arrays
       ∧ aggregate2d obj = process_rows lebX lebY (dimensions obj) rows
       ∧ process_rows lebX lebY (dimensions obj) rows
         = Returned (mkDataset (take 2 (dimensions obj)) (drop 2 (dimensions obj))
                               (Gridded d1keys ys arrays))
       ∧ ∀ k x y, k < nvdims → x ∈ map row_x rows → y ∈ map row_y rows →
           map (value_at k)
               (filter (λ r, key r = (x, y)) (concatenate [dense_data; rows]))
           = NaN :: map (value_at k) (filter (λ r, key r = (x, y)) rows)
           ∧ grid_cell (mkDataset (take 2 (dimensions obj))
                                  (drop 2 (dimensions obj))
                                  (Gridded d1keys ys arrays)) k x y
             = Some (reduce_fn
                       (map (value_at k) (filter (λ r, key r = (x, y)) rows)))).
Proof.
  split_and!.
  - apply reduce_fn_all_nan.
  - intros pre v post -> Hpre Hv. by apply reduce_fn_first.
  - intros Hdata Hk Hv Hy Hperm d1keys d2keys shape nvdims.
    destruct (aggregate2d_tabular lebX lebY obj rows Hdata Hk Hv) as (Hrun & Hd & Hnv).
    set (vd := drop 2 (dimensions obj)).
    assert (length ys = length d2keys) as Hlen by (by rewrite Hperm).
    assert (NoDup ys) as Hnd by (rewrite Hperm; apply NoDup_unique).
    assert (NoDup d1keys) as Hnd1 by apply NoDup_unique.
    assert (∀ r, r ∈ rows → row_x r ∈ d1keys ∧ row_y r ∈ ys) as Hcover.
    { intros r Hr. split.
      - apply elem_of_unique, list_elem_of_fmap. eauto.
      - rewrite Hperm. apply elem_of_unique, list_elem_of_fmap. eauto. }
    exists (flat_map (λ y, map (λ x, nan_row vd x y) d1keys) ys),
           (map (dense_array rows d1keys ys) (seq 0 nvdims)).
    split_and!.
    + apply table_of_padding. unfold shape. simpl. by rewrite Hlen.
    + apply Forall_forall. intros r Hr.
      apply list_elem_of_In, in_flat_map in Hr as (y & _ & Hr).
      apply in_map_iff in Hr as (x & <- & _). simpl.
      apply Forall_forall. by intros v (d & -> & _)%list_elem_of_fmap.
    + apply mapM_total. intros k Hkk. apply elem_of_seq in Hkk as [_ Hkk].
      simpl in Hkk. rewrite aggregate_padded by done. rewrite map_map.
      rewrite (map_ext _ (λ p : X * Y, first_valid rows k p.1 p.2)).
      * apply reshape_column. by rewrite Hlen.
      * intros [x y]. cbn [fst snd].
        by rewrite (value_at_aggregated (λ k, first_valid rows k x y)).
    + exact Hrun.
    + by apply process_rows_returns.
    + intros k x y Hkk Hx Hyy. split.
      * unfold concatenate; simpl. rewrite app_nil_r, filter_app, map_app.
        assert (nan_row vd x y
                ∈ flat_map (λ y, map (λ x, @nan_row X Y A vd x y) d1keys) ys) as Hin.
        { apply list_elem_of_In, in_flat_map. exists y. split.
          - apply list_elem_of_In. rewrite Hperm. by apply elem_of_unique.
          - apply in_map_iff. exists x. split; [done|].
            apply list_elem_of_In. by apply elem_of_unique. }
        rewrite (filter_same_key key _ (nan_row vd x y)); [|by rewrite key_dense; apply NoDup_pairs|done].
        simpl. f_equal. unfold value_at, nan_row; simpl.
        clear. revert k. induction vd as [|d vd IH]; intros [|k]; simpl; auto.
      * apply (grid_cell_grid_of (dimensions obj) rows ys k x y);
          [done|by apply elem_of_unique|].
        rewrite Hperm. by apply elem_of_unique.
Qed.

(** C6.  A dataset stored in a gridded representation is returned as it
    is, and applying the operation to the result returns it again. *)
Theorem C6_gridded_returned_unchanged obj :
  gridded obj = true →
  aggregate2d obj = Returned obj
  ∧ ∀ g, aggregate2d obj = Returned g → aggregate2d g = Returned g.
Proof.
  intros Hg. split; [|apply aggregate2d_idempotent].
  unfold categorical_aggregate2d, gridded in *. by destruct (data obj).
Qed.

(** C7.  A dataset that is not gridded and declares more than two key
    dimensions raises the ValueError of line 91, whatever its rows are. *)
Theorem C7_too_many_key_dimensions obj :
  gridded obj = false → 2 < length (kdims obj) →
  aggregate2d obj = Raised (ValueError "Cannot aggregate more than two dimensions").
Proof.
  intros Hg Hk. unfold categorical_aggregate2d, gridded, ndims in *.
  destruct (data obj); [|done]. by rewrite decide_True.
Qed.

(** C8.  A dataset that is not gridded and has fewer than three dimensions
    in total raises the ValueError of lines 93-94. *)
Theorem C8_insufficient_dimensions obj :
  gridded obj = false → length (dimensions obj) < 3 →
  aggregate2d obj = Raised (ValueError
    "Must have at two dimensions to aggregate overand one value dimension to aggregate on.").
Proof.
  intros Hg Hd. unfold categorical_aggregate2d, gridded, ndims in *.
  destruct (data obj); [|done].
  assert (length (dimensions obj) = length (kdims obj) + length (vdims obj)) as Hlen
    by apply length_app.
  rewrite decide_False by lia. by rewrite decide_True.
Qed.

(** C10.  The gridded test comes first: a gridded dataset is returned as
    it is, and nothing is raised, also when it declares more than two key
    dimensions or fewer than three dimensions in total. *)
Theorem C10_gridded_check_first obj :
  gridded obj = true →
  2 < ndims obj ∨ length (dimensions obj) < 3 →
  aggregate2d obj = Returned obj ∧ ∀ e, aggregate2d obj ≠ Raised e.
Proof.
  intros Hg _. unfold categorical_aggregate2d, gridded in *.
  by destruct (data obj).
Qed.
End Claims.

(** * The claims on concrete tables *)

Module ExampleFacts.
Import Examples.

Lemma run_population : run population = Returned population_grid.
Proof. vm_compute. reflexivity. Qed.

(** C9.  On the two rows (USA, 2000, 282.2) and (UK, 2005, 58.89) the
    operation returns the 2x2 grid with X coordinates USA, UK in order of
    first occurrence, Y coordinates 2000, 2005 and values
    [[282.2, NaN], [NaN, 58.89]]. *)
Theorem C9_population_grid :
  run (mkDataset ["Country"; "Year"] ["Population"]
         (Tabular [Row "USA" 2000%Z [Num (1411 # 5)%Q];
                   Row "UK" 2005%Z [Num (5889 # 100)%Q]]))
  = Returned (mkDataset ["Country"; "Year"] ["Population"]
      (Gridded ["USA"; "UK"] [2000%Z; 2005%Z]
         [[[Num (1411 # 5)%Q; NaN]; [NaN; Num (5889 # 100)%Q]]]))
  ∧ np_sort String.leb ["USA"; "UK"] = ["UK"; "USA"].
Proof. split; vm_compute; reflexivity. Qed.

(** C1 as stated fails: the pair (A, 1) is carried by the rows with values
    5 and 7, and the grid holds 5 there, not the 7 of the second row. *)
Lemma C1_repeated_pair_counterexample :
  ∃ g, run (table repeated_rows) = Returned g
       ∧ ¬ holds_row_values repeated_rows g.
Proof.
  eexists. split; [vm_compute; reflexivity|].
  intros Hh. specialize (Hh (Row "A" 1%Z [Num (7 # 1)%Q]) 0).
  assert (Row "A" 1%Z [Num (7 # 1)%Q] ∈ repeated_rows) as Hin
    by (right; left).
  specialize (Hh Hin). vm_compute in Hh.
  assert (0 < 1) as Hlt by lia. specialize (Hh Hlt). discriminate Hh.
Qed.

Lemma C1_grid_holds_first_valid_witness :
  grid_cell population_grid 0 "USA" 2000%Z = Some (Num (1411 # 5)%Q)
  ∧ grid_cell population_grid 0 "UK" 2000%Z = Some NaN.
Proof.
  destruct (C1_grid_holds_first_valid String.leb Z.leb population population_rows
              eq_refl eq_refl (le_n 1)) as [_ Hcells].
  specialize (Hcells population_grid run_population 0).
  split.
  - destruct (Hcells "USA" 2000%Z) as (_ & Hone & _);
      [simpl; lia | left | left |].
    exact (Hone (Row "USA" 2000%Z [Num (1411 # 5)%Q]) eq_refl).
  - destruct (Hcells "UK" 2000%Z) as (_ & _ & Hnone);
      [simpl; lia | right; left | left |].
    apply Hnone. intros r Hr.
    apply elem_of_cons in Hr as [->|Hr]; [discriminate|].
    apply elem_of_cons in Hr as [->|Hr]; [discriminate|].
    by apply elem_of_nil in Hr.
Defined.


(** C3 fails on [overwritten_rows].  The partitions list 1,3 then 2,1 then
    2,3; the assignment of line 119 replaces the successor 1 recorded for 2
    by 3, the graph has no edge from 2 to 1, and the Y order of the result
    puts 1 before 2 although the second partition has 2 before 1. *)
Theorem C3_edge_overwritten :
  map (map row_y) (groupby_x overwritten_rows) = [[1; 3]; [2; 1]; [2; 3]]%Z
  ∧ orderings String.leb Z.leb overwritten_rows = [(1, [3]); (2, [3])]%Z
  ∧ ¬ has_edge (orderings String.leb Z.leb overwritten_rows) 2%Z 1%Z
  ∧ ∃ g, run (table overwritten_rows) = Returned g
         ∧ ycoords_of g = [1; 2; 3]%Z.
Proof.
  assert (orderings String.leb Z.leb overwritten_rows = [(1, [3]); (2, [3])]%Z)
    as Hord by (vm_compute; reflexivity).
  split_and!; [vm_compute; reflexivity | exact Hord | |].
  - rewrite Hord. intros (succs & Hin & Hone).
    apply elem_of_cons in Hin as [[=]|Hin].
    apply elem_of_cons in Hin as [[= ->]|Hin].
    + apply elem_of_cons in Hone as [[=]|Hone]. by apply elem_of_nil in Hone.
    + by apply elem_of_nil in Hin.
  - eexists. split; vm_compute; reflexivity.
Qed.



Lemma C5_first_non_null_witness :
  reduce_fn [NaN; Num (3 # 1)%Q; Num (4 # 1)%Q] = Num (3 # 1)%Q
  ∧ map (value_at 0)
        (filter (λ r, key r = ("USA", 2000%Z))
                (concatenate [[Row "USA" 2000%Z [NaN]; Row "UK" 2000%Z [NaN];
                               Row "USA" 2005%Z [NaN]; Row "UK" 2005%Z [NaN]];
                              population_rows]))
    = [NaN; Num (1411 # 5)%Q]
  ∧ grid_cell population_grid 0 "USA" 2000%Z = Some (Num (1411 # 5)%Q).
Proof.
  destruct (C5_first_non_null String.leb Z.leb
              [NaN; Num (3 # 1)%Q; Num (4 # 1)%Q]
              population population_rows [2000%Z; 2005%Z])
    as (_ & Hfirst & Hcode).
  split.
  { apply (Hfirst [NaN] (Num (3 # 1)%Q) [Num (4 # 1)%Q]);
      [reflexivity | repeat constructor | reflexivity]. }
  destruct (Hcode eq_refl eq_refl (le_n 1) eq_refl (Permutation_refl _))
    as (dense & arrays & Hdense & _ & Harrays & _ & _ & Hcells).
  injection Hdense as <-.
  assert (arrays = [[[Num (1411 # 5)%Q; NaN]; [NaN; Num (5889 # 100)%Q]]]) as ->.
  { vm_compute in Harrays. by injection Harrays as <-. }
  destruct (Hcells 0 "USA" 2000%Z) as [Hgroup Hcell];
    [simpl; lia | left | left |].
  split; [exact Hgroup | exact Hcell].
Defined.

Lemma C6_gridded_returned_unchanged_witness : run cube = Returned cube.
Proof.
  exact (proj1 (C6_gridded_returned_unchanged String.leb Z.leb cube eq_refl)).
Defined.

Lemma C7_too_many_key_dimensions_witness :
  run three_keys = Raised (ValueError "Cannot aggregate more than two dimensions").
Proof.
  apply (C7_too_many_key_dimensions String.leb Z.leb three_keys eq_refl).
  simpl. lia.
Defined.

Lemma C8_insufficient_dimensions_witness :
  ∃ msg, run curve = Raised (ValueError msg).
Proof.
  eexists.
  apply (C8_insufficient_dimensions String.leb Z.leb curve eq_refl).
  simpl. lia.
Defined.

Lemma C10_gridded_check_first_witness :
  2 < ndims cube ∧ run cube = Returned cube.
Proof.
  assert (2 < ndims cube) as Hk by (unfold ndims; simpl; lia).
  split; [exact Hk|].
  exact (proj1 (C10_gridded_check_first String.leb Z.leb cube eq_refl (or_introl Hk))).
Defined.

End ExampleFacts.

(** * Further properties of the code *)

(** ** The reducer *)

Section ReducerFacts.
Context {A : Type}.
Implicit Types (v : cell A) (l : list (cell A)).

(** X1.  [reduce_fn] returns NaN exactly when every value is NaN: a proper
    value is never lost. *)
Theorem X1_reduce_fn_nan_iff l :
  reduce_fn l = NaN ↔ Forall (λ v, is_nan v = true) l.
Proof. split; [apply reduce_fn_nan_inv | apply reduce_fn_all_nan]. Qed.

(** X2.  Reducing a sequence is the same as reducing its two halves and
    then the two results: the reducer can be applied chunk by chunk. *)
Theorem X2_reduce_fn_chunks l1 l2 :
  reduce_fn (l1 ++ l2) = reduce_fn [reduce_fn l1; reduce_fn l2].
Proof.
  induction l1 as [|v l1 IH].
  - cbn [app reduce_fn is_nan negb]. by destruct (reduce_fn l2).
  - destruct v as [|a]; [exact IH|]. reflexivity.
Qed.

Lemma reduce_fn_member l : reduce_fn l ≠ NaN → reduce_fn l ∈ l.
Proof.
  induction l as [|v l IH]; simpl; [done|].
  destruct v as [|a]; simpl.
  - intros Hne. right. by apply IH.
  - intros _. left.
Qed.

(** X3.  A result that is not NaN is one of the values passed in, and no
    value before it in the sequence is a proper value. *)
Theorem X3_reduce_fn_member l a :
  reduce_fn l = Num a →
  ∃ pre post, l = pre ++ Num a :: post ∧ Forall (λ v, is_nan v = true) pre.
Proof.
  induction l as [|v l IH]; simpl; [done|].
  destruct v as [|b]; simpl.
  - intros (pre & post & -> & Hpre)%IH.
    exists (NaN :: pre), post. split; [done|]. by constructor.
  - intros [= ->]. exists [], l. split; [done|constructor].
Qed.
End ReducerFacts.

(** ** The precedence dictionary *)

Section OrderingFacts.
Context {X Y A : Type} `{EqDecision X, EqDecision Y}.
Variable lebX : X → X → bool.
Variable lebY : Y → Y → bool.
Implicit Types (rows : list (@row X Y A)) (od : @odict Y) (vals : list Y).

Lemma od_set_keys {W} (k : Y) (v : W) (od : list (Y * W)) :
  map fst (od_set k v od)
  = if decide (k ∈ map fst od) then map fst od else map fst od ++ [k].
Proof.
  induction od as [|[k' v'] od IH]; simpl; [done|].
  destruct (decide (k = k')) as [->|Hne]; simpl.
  - by rewrite decide_True by left.
  - rewrite IH. destruct (decide (k ∈ map fst od)) as [Hin|Hin].
    + by rewrite decide_True by (by right).
    + rewrite decide_False; [done|].
      intros [?|?]%elem_of_cons; done.
Qed.

Lemma od_set_NoDup {W} (k : Y) (v : W) (od : list (Y * W)) :
  NoDup (map fst od) → NoDup (map fst (od_set k v od)).
Proof.
  intros Hnd. rewrite od_set_keys. destruct (decide _) as [|Hin]; [done|].
  apply NoDup_app. split_and!; [done| |apply NoDup_singleton].
  intros x Hx ->%list_elem_of_singleton. done.
Qed.

Lemma od_set_Forall {W} (Q : Y * W → Prop) (k : Y) (v : W) (od : list (Y * W)) :
  Q (k, v) → Forall Q od → Forall Q (od_set k v od).
Proof.
  intros Hkv. induction 1 as [|[k' v'] od Hhd Htl IH]; simpl.
  - by repeat constructor.
  - destruct (decide (k = k')); by constructor.
Qed.

Lemma scan_group_inv (I : @odict Y → Prop) (R : Y → list Y → Prop) st vals :
  (∀ od k v, I od → R k v → I (od_set k v od)) →
  (∀ v, vals = [v] → R v []) →
  (∀ p q, (p, q) ∈ adjacent vals → R p [q]) →
  I st.2 → I (scan_group lebY st vals).2.
Proof.
  intros Hstep Hone Hadj Hst.
  assert (I (fold_left (λ od p, od_set p.1 [p.2] od) (adjacent vals) st.2)) as Hfold.
  { revert Hadj. generalize (adjacent vals). intros ps. revert Hst.
    generalize (st.2). induction ps as [|[p q] ps IH]; intros od Hod Hps; [done|].
    simpl. apply IH.
    - apply Hstep; [done|]. apply Hps. left.
    - intros p' q' Hin. apply Hps. by right. }
  destruct vals as [|v [|w vals]]; simpl; try done.
  apply Hstep; [done|]. by apply Hone.
Qed.

Lemma scan_groups_inv (I : @odict Y → Prop) (R : Y → list Y → Prop)
    (groups : list (list Y)) st :
  (∀ od k v, I od → R k v → I (od_set k v od)) →
  (∀ v, [v] ∈ groups → R v []) →
  (∀ vals p q, vals ∈ groups → (p, q) ∈ adjacent vals → R p [q]) →
  I st.2 → I (fold_left (scan_group lebY) groups st).2.
Proof.
  intros Hstep. revert st.
  induction groups as [|vals groups IH]; intros st Hone Hadj Hst; simpl; [done|].
  apply IH.
  - intros v Hv. apply Hone. by right.
  - intros vals' p q Hin. apply Hadj. by right.
  - apply (scan_group_inv I R); [done| | |done].
    + intros v ->. apply Hone. left.
    + intros p q. apply Hadj. left.
Qed.

(** X4.  The dictionary built by lines 109-119 has every Y value at most
    once as a key and holds at most one successor for it: whatever the
    partitions are, the recorded graph never branches. *)
Theorem X4_orderings_one_successor rows :
  NoDup (map fst (orderings lebX lebY rows))
  ∧ Forall (λ e, length e.2 ≤ 1) (orderings lebX lebY rows).
Proof.
  unfold orderings, scan_groups.
  apply (scan_groups_inv
           (λ od, NoDup (map fst od) ∧ Forall (λ e, length e.2 ≤ 1) od)
           (λ _ v, length v ≤ 1)).
  - intros od k v [Hnd Hall] Hv. split; [by apply od_set_NoDup|].
    by apply od_set_Forall.
  - intros v _. simpl. lia.
  - intros vals p q _ _. simpl. lia.
  - simpl. split; constructor.
Qed.

(** X5.  Every edge of the recorded graph was observed: if [q] is recorded
    as successor of [p], some X-partition lists [q] right after [p]. *)
Theorem X5_orderings_edges_observed rows p q :
  has_edge (orderings lebX lebY rows) p q →
  ∃ grp, grp ∈ groupby_x rows ∧ (p, q) ∈ adjacent (map row_y grp).
Proof.
  set (R := λ (k : Y) (v : list Y), ∀ q, q ∈ v →
         ∃ grp, grp ∈ groupby_x rows ∧ (k, q) ∈ adjacent (map row_y grp)).
  assert (Forall (λ e, R e.1 e.2) (orderings lebX lebY rows)) as Hall.
  { unfold orderings, scan_groups.
    apply (scan_groups_inv (λ od, Forall (λ e, R e.1 e.2) od) R).
    - intros od k v Hod Hkv. by apply od_set_Forall.
    - intros v _ q' Hq'. by apply elem_of_nil in Hq'.
    - intros vals p' q' (grp & -> & Hgrp)%list_elem_of_fmap Hadj q''
        ->%list_elem_of_singleton. eauto.
    - constructor. }
  intros (succs & Hin & Hq). rewrite Forall_forall in Hall.
  exact (Hall _ Hin q Hq).
Qed.

Lemma scan_groups_sorted_eq (groups : list (list Y)) st :
  (fold_left (scan_group lebY) groups st).1
  = st.1 && forallb (λ vals, array_equal (np_sort lebY vals) vals) groups.
Proof.
  revert st. induction groups as [|vals groups IH]; intros st; simpl.
  - by rewrite andb_true_r.
  - rewrite IH. rewrite andb_assoc. f_equal.
    destruct vals as [|v [|w vals]]; try done.
    simpl. unfold array_equal. rewrite bool_decide_eq_true_2 by done.
    by rewrite andb_true_r.
Qed.

(** X6.  The natural sort of line 121 is taken exactly when the unique X
    values equal their sort and the Y sequence of every X-partition equals
    its sort; the raw Y keys are not looked at. *)
Theorem X6_is_sorted_iff rows :
  is_sorted lebX lebY rows = true ↔
  np_sort lebX (unique (map row_x rows)) = unique (map row_x rows)
  ∧ ∀ grp, grp ∈ groupby_x rows →
      np_sort lebY (map row_y grp) = map row_y grp.
Proof.
  unfold is_sorted, scan_groups. rewrite scan_groups_sorted_eq. simpl.
  rewrite andb_true_iff, forallb_forall. unfold array_equal.
  rewrite bool_decide_eq_true. apply and_iff_compat_l. split.
  - intros Hall grp Hgrp.
    specialize (Hall (map row_y grp)). rewrite bool_decide_eq_true in Hall.
    apply Hall, list_elem_of_In, list_elem_of_fmap. eauto.
  - intros Hall vals (grp & -> & Hgrp)%list_elem_of_In%list_elem_of_fmap.
    apply bool_decide_eq_true. by apply Hall.
Qed.
End OrderingFacts.

(** ** The returned grid *)

Section GridFacts.
Context {X Y A : Type} `{EqDecision X, EqDecision Y}.
Variable lebX : X → X → bool.
Variable lebY : Y → Y → bool.
Implicit Types (rows : list (@row X Y A)) (obj g : @Dataset X Y A).

Local Abbreviation aggregate2d := (categorical_aggregate2d lebX lebY).

(** A table passes the two tests of lines 90-94 when it declares at most
    two key dimensions and has at least three dimensions. *)
Lemma aggregate2d_passes obj rows :
  data obj = Tabular rows → ndims obj ≤ 2 → 3 ≤ length (dimensions obj) →
  aggregate2d obj = process_rows lebX lebY (dimensions obj) rows.
Proof.
  intros Hdata Hk Hd. unfold categorical_aggregate2d. rewrite Hdata.
  rewrite decide_False by lia. by rewrite decide_False by lia.
Qed.

Lemma index_of_lookup {K} `{EqDecision K} (a : K) (l : list K) i :
  index_of a l = Some i → l !! i = Some a.
Proof.
  unfold index_of. intros ([j b] & Hf & [= ->])%fmap_Some.
  apply list_find_Some in Hf as (Hi & -> & _). done.
Qed.

Lemma grid_cell_grid_of_inv (dims : list string) rows ys k x y c :
  grid_cell (grid_of dims rows ys) k x y = Some c →
  c = first_valid rows k x y ∧ k < length dims - 2
  ∧ x ∈ unique (map row_x rows) ∧ y ∈ ys.
Proof.
  unfold grid_cell, grid_of; simpl.
  destruct (index_of x _) as [j|] eqn:Hj; [|done].
  destruct (index_of y _) as [i|] eqn:Hi; [|done]. simpl.
  apply index_of_lookup in Hj. apply index_of_lookup in Hi.
  rewrite list_lookup_fmap.
  destruct (seq 0 (length dims - 2) !! k) as [k'|] eqn:Hk; [|done]. simpl.
  apply lookup_seq in Hk as [-> Hk]. simpl.
  unfold dense_array. rewrite list_lookup_fmap, Hi. simpl.
  rewrite list_lookup_fmap, Hj. simpl. intros [= <-].
  split_and!; [done..| |]; by eapply list_elem_of_lookup_2.
Qed.

(** X7.  Whenever a table that passes the two dimension tests is
    aggregated, the result has the unique X values in order of first
    occurrence as X coordinates, every unique Y value once as Y
    coordinates, and one array of shape (unique Y, unique X) for each
    dimension after the second.  The first two dimensions serve as axes
    also when fewer than two are declared as key dimensions. *)
Theorem X7_grid_structure obj rows g :
  data obj = Tabular rows → ndims obj ≤ 2 → 3 ≤ length (dimensions obj) →
  aggregate2d obj = Returned g →
  ∃ ys arrays,
    data g = Gridded (unique (map row_x rows)) ys arrays
    ∧ ys ≡ₚ unique (map row_y rows)
    ∧ length arrays = length (dimensions obj) - 2
    ∧ Forall (λ arr, has_shape arr (length (unique (map row_y rows)),
                                    length (unique (map row_x rows)))) arrays.
Proof.
  intros Hdata Hk Hd Hg. rewrite (aggregate2d_passes obj rows) in Hg by done.
  apply process_rows_inv in Hg as (ys & _ & Hperm & ->); [|done].
  eexists ys, _. split_and!; [reflexivity|done| |].
  - by rewrite length_map, length_seq.
  - apply Forall_forall. intros arr (k & -> & _)%list_elem_of_fmap.
    rewrite <-Hperm. apply dense_array_shape.
Qed.

(** X8.  The operation is idempotent: whatever dataset a call returns, a
    second call on it returns the same dataset. *)
Theorem X8_idempotent obj g :
  categorical_aggregate2d lebX lebY obj = Returned g →
  categorical_aggregate2d lebX lebY g = Returned g.
Proof. apply aggregate2d_idempotent. Qed.

(** X9.  In the result for a table that passes the dimension tests, the
    cell of a value dimension at a pair of coordinates is NaN exactly when
    no input row with that pair has a value other than NaN there. *)
Theorem X9_cell_nan_iff obj rows g k x y :
  data obj = Tabular rows → ndims obj ≤ 2 → 3 ≤ length (dimensions obj) →
  aggregate2d obj = Returned g →
  k < length (dimensions obj) - 2 → x ∈ map row_x rows → y ∈ map row_y rows →
  grid_cell g k x y = Some NaN ↔
  ∀ r, r ∈ rows → key r = (x, y) → is_nan (value_at k r) = true.
Proof.
  intros Hdata Hk Hd Hg Hkv Hx Hy.
  rewrite (aggregate2d_passes obj rows) in Hg by done.
  apply process_rows_inv in Hg as (ys & _ & Hperm & ->); [|done].
  rewrite grid_cell_grid_of;
    [|done|by apply elem_of_unique|rewrite Hperm; by apply elem_of_unique].
  unfold first_valid. split.
  - intros [= Hnan]. apply reduce_fn_nan_inv in Hnan.
    rewrite Forall_forall in Hnan. intros r Hr Hkey.
    apply Hnan, list_elem_of_fmap. exists r. split; [done|].
    by apply list_elem_of_filter.
  - intros Hall. f_equal. apply reduce_fn_all_nan, Forall_forall.
    intros v (r & -> & [Hkey Hr]%list_elem_of_filter)%list_elem_of_fmap. auto.
Qed.

(** X10.  The result holds no value of its own making: a cell that is not
    NaN is the cell of an input row with the same coordinate pair. *)
Theorem X10_cell_from_input obj rows g k x y a :
  data obj = Tabular rows → ndims obj ≤ 2 → 3 ≤ length (dimensions obj) →
  aggregate2d obj = Returned g →
  grid_cell g k x y = Some (Num a) →
  ∃ r, r ∈ rows ∧ key r = (x, y) ∧ value_at k r = Num a.
Proof.
  intros Hdata Hk Hd Hg Hcell.
  rewrite (aggregate2d_passes obj rows) in Hg by done.
  apply process_rows_inv in Hg as (ys & _ & Hperm & ->); [|done].
  apply grid_cell_grid_of_inv in Hcell as (Hc & _).
  unfold first_valid in Hc.
  assert (reduce_fn (map (value_at k) (filter (λ r, key r = (x, y)) rows))
          ∈ map (value_at k) (filter (λ r, key r = (x, y)) rows)) as Hin.
  { apply reduce_fn_member. by rewrite <-Hc. }
  rewrite <-Hc in Hin.
  apply list_elem_of_fmap in Hin as (r & Hv & [Hkey Hr]%list_elem_of_filter).
  eauto.
Qed.
End GridFacts.

(** ** Tables with one row per X value *)

Section SingleRows.
Context {X Y A : Type} `{EqDecision X, EqDecision Y}.
Variable lebX : X → X → bool.
Variable lebY : Y → Y → bool.
Implicit Types (rows : list (@row X Y A)) (obj g : @Dataset X Y A).










End SingleRows.

(** ** Bin edges *)

Section EdgesFacts.
Context {F : Type}.
Variable fsub : F → F → F.
Variable fadd : F → F → F.
Variable fhalf : F → F.
Variable isclose : F → F → bool.
Implicit Types (edges r : list F).

Local Abbreviation edges_of := (compute_edges fsub fadd fhalf isclose).

Lemma np_diff_length edges : length (np_diff fsub edges) = length edges - 1.
Proof.
  induction edges as [|x [|y rest] IH]; simpl in *; [done..|].
  rewrite IH. lia.
Qed.

Lemma forallb_false_elem (f : F → bool) (l : list F) :
  forallb f l = false → ∃ w, w ∈ l ∧ f w = false.
Proof.
  induction l as [|a l IH]; simpl; [done|].
  destruct (f a) eqn:Ha; simpl.
  - intros (w & Hw & Hf)%IH. exists w. split; [by right|done].
  - intros _. exists a. split; [left|done].
Qed.

(** X12.  With fewer than two bin centers there is no width: the call
    ends in the IndexError of [widths[0]], not in the ValueError of line
    43, and the array passed in is left as it was. *)
Theorem X12_compute_edges_too_short edges :
  length edges < 2 →
  compute_edges fsub fadd fhalf isclose edges = EdgesRun (inl IndexError) edges.
Proof.
  intros Hlen. unfold compute_edges.
  destruct (np_diff fsub edges) as [|w ws] eqn:Hd; [done|].
  apply (f_equal length) in Hd. rewrite np_diff_length in Hd. simpl in Hd. lia.
Qed.

(** X14.  With at least two centers, the call ends in the ValueError of
    line 43 exactly when some width is not close to the first one, and
    then the array passed in is left as it was. *)
Theorem X14_compute_edges_unequal edges width :
  head (np_diff fsub edges) = Some width →
  edges_of edges
  = EdgesRun (inl (BinWidthError "Centered bins have to be of equal width.")) edges
  ↔ ∃ w, w ∈ np_diff fsub edges ∧ isclose w width = false.
Proof.
  unfold compute_edges.
  destruct (np_diff fsub edges) as [|w0 ws] eqn:Hd; [done|].
  simpl head. intros [= ->].
  destruct (forallb (λ w, isclose w width) (width :: ws)) eqn:Hall.
  - split.
    + by destruct (last _).
    + intros (w & Hw & Hclose). rewrite forallb_forall in Hall.
      apply list_elem_of_In, Hall in Hw. congruence.
  - split; [intros _|done].
    by apply forallb_false_elem.
Qed.
End EdgesFacts.

(** ** Line segments of a path *)

Section PathFacts.
Context {P : Type}.
Implicit Types (arr : list P).

Lemma zip_seq_next i k :
  zip (seq i k) (seq (S i) (S k)) = map (λ j, (j, S j)) (seq i k).
Proof.
  revert i. induction k as [|k IH]; intros i; [done|].
  cbn [seq zip zip_with map]. f_equal. apply IH.
Qed.

Lemma path_segments_windows arr :
  path_segments arr = map (λ j, take 2 (drop j arr)) (seq 0 (length arr - 1)).
Proof.
  unfold path_segments.
  assert (zip (seq 0 (length arr - 1)) (seq 1 (length arr))
          = map (λ j, (j, S j)) (seq 0 (length arr - 1))) as ->.
  { destruct arr as [|a arr]; [done|]. simpl. rewrite Nat.sub_0_r.
    apply zip_seq_next. }
  rewrite map_map. apply map_ext. intros j. unfold slice. cbn [fst snd].
  by replace (S j + 1 - j) with 2 by lia.
Qed.

Lemma path_segments_adjacent arr :
  path_segments arr = map (λ pq, [pq.1; pq.2]) (adjacent arr).
Proof.
  rewrite path_segments_windows.
  induction arr as [|a [|b rest] IH]; [done..|].
  replace (length (a :: b :: rest) - 1) with (S (length (b :: rest) - 1))
    by (simpl; lia).
  change (adjacent (a :: b :: rest)) with ((a, b) :: adjacent (b :: rest)).
  cbn [seq map]. f_equal.
  rewrite <-IH, <-fmap_S_seq. rewrite <-list_fmap_compose.
  by apply map_ext.
Qed.

Lemma drop_segments arr :
  flat_map (drop 1) (map (λ pq : P * P, [pq.1; pq.2]) (adjacent arr)) = drop 1 arr.
Proof.
  induction arr as [|a [|b rest] IH]; [done..|].
  change (adjacent (a :: b :: rest)) with ((a, b) :: adjacent (b :: rest)).
  cbn [map flat_map]. rewrite IH. done.
Qed.

(** X15.  With a style mapping, a path of n points is cut into n - 1
    segments, the i-th made of the points i and i + 1; a path of fewer
    than two points gives no segment. *)
Theorem X15_path_segments_pairs arr :
  path_segments arr = map (λ pq, [pq.1; pq.2]) (adjacent arr)
  ∧ length (path_segments arr) = length arr - 1
  ∧ ∀ i seg, path_segments arr !! i = Some seg →
      ∃ p q, seg = [p; q] ∧ arr !! i = Some p ∧ arr !! S i = Some q.
Proof.
  split_and!.
  - apply path_segments_adjacent.
  - by rewrite path_segments_windows, length_map, length_seq.
  - rewrite path_segments_windows. intros i seg Hseg.
    rewrite list_lookup_fmap in Hseg.
    destruct (seq 0 (length arr - 1) !! i) as [j|] eqn:Hj; [|done].
    apply lookup_seq in Hj as [-> Hi]. simpl in Hseg. injection Hseg as <-.
    destruct (lookup_lt_is_Some_2 arr i) as [p Hp]; [lia|].
    destruct (lookup_lt_is_Some_2 arr (S i)) as [q Hq]; [lia|].
    exists p, q. split; [|done].
    rewrite (drop_S _ _ _ Hp). simpl. rewrite (drop_S _ _ _ Hq). done.
Qed.

(** X16.  The segments of a path of at least two points chain: joining
    them at their shared end points gives the path back. *)
Theorem X16_path_segments_rejoin arr :
  2 ≤ length arr → rejoin (path_segments arr) = arr.
Proof.
  intros Hlen. rewrite path_segments_adjacent.
  destruct arr as [|a [|b rest]]; simpl in Hlen; [lia..|].
  change (adjacent (a :: b :: rest)) with ((a, b) :: adjacent (b :: rest)).
  cbn [map rejoin]. rewrite drop_segments. done.
Qed.
End PathFacts.


(** * The further properties on concrete inputs *)

Module ExtraFacts.
Import Examples.

Lemma run_one_key : run one_key = Returned population_grid.
Proof. vm_compute. reflexivity. Qed.

Lemma X3_reduce_fn_member_witness :
  ∃ pre post, [NaN; Num 3%Z; Num 4%Z] = pre ++ Num 3%Z :: post
              ∧ Forall (λ v, is_nan v = true) pre.
Proof. exact (X3_reduce_fn_member [NaN; Num 3%Z; Num 4%Z] 3%Z eq_refl). Defined.

Lemma X5_orderings_edges_observed_witness :
  ∃ grp, grp ∈ groupby_x overwritten_rows
         ∧ (1%Z, 3%Z) ∈ adjacent (map row_y grp).
Proof.
  apply (X5_orderings_edges_observed String.leb Z.leb).
  exists [3%Z]. split; [|left].
  assert (orderings String.leb Z.leb overwritten_rows = [(1, [3]); (2, [3])]%Z)
    as -> by (vm_compute; reflexivity).
  left.
Defined.

Lemma X7_grid_structure_witness :
  ∃ ys arrays, data population_grid = Gridded ["USA"; "UK"] ys arrays
               ∧ length arrays = 1.
Proof.
  assert (ndims one_key ≤ 2) as Hk by (unfold ndims; simpl; lia).
  assert (3 ≤ length (dimensions one_key)) as Hd by (unfold dimensions; simpl; lia).
  destruct (X7_grid_structure String.leb Z.leb one_key population_rows
              population_grid eq_refl Hk Hd run_one_key)
    as (ys & arrays & Hdata & _ & Hlen & _).
  exists ys, arrays. split; [exact Hdata|exact Hlen].
Defined.

Lemma X8_idempotent_witness : run population_grid = Returned population_grid.
Proof.
  exact (X8_idempotent String.leb Z.leb population population_grid
           ExampleFacts.run_population).
Defined.

Lemma X9_cell_nan_iff_witness :
  grid_cell population_grid 0 "UK" 2000%Z = Some NaN.
Proof.
  assert (ndims population ≤ 2) as Hk by (unfold ndims; simpl; lia).
  assert (3 ≤ length (dimensions population)) as Hd
    by (unfold dimensions; simpl; lia).
  apply (X9_cell_nan_iff String.leb Z.leb population population_rows
           population_grid 0 "UK" 2000%Z eq_refl Hk Hd ExampleFacts.run_population).
  - simpl. lia.
  - right. left.
  - left.
  - intros r Hr Hkey.
    apply elem_of_cons in Hr as [->|Hr]; [discriminate|].
    apply elem_of_cons in Hr as [->|Hr]; [discriminate|].
    by apply elem_of_nil in Hr.
Defined.

Lemma X10_cell_from_input_witness :
  ∃ r, r ∈ population_rows ∧ key r = ("USA", 2000%Z)
       ∧ value_at 0 r = Num (1411 # 5)%Q.
Proof.
  assert (ndims population ≤ 2) as Hk by (unfold ndims; simpl; lia).
  assert (3 ≤ length (dimensions population)) as Hd
    by (unfold dimensions; simpl; lia).
  exact (X10_cell_from_input String.leb Z.leb population population_rows
           population_grid 0 "USA" 2000%Z (1411 # 5)%Q eq_refl Hk Hd
           ExampleFacts.run_population eq_refl).
Defined.


Lemma X12_compute_edges_too_short_witness :
  int_edges [5%Z] = EdgesRun (inl IndexError) [5%Z].
Proof.
  apply X12_compute_edges_too_short. simpl. lia.
Defined.

Lemma X14_compute_edges_unequal_witness :
  int_edges [1; 3; 6]%Z
  = EdgesRun (inl (BinWidthError "Centered bins have to be of equal width."))
             [1; 3; 6]%Z.
Proof.
  apply (X14_compute_edges_unequal Z.sub Z.add (λ w, (w / 2)%Z) Z.eqb
           [1; 3; 6]%Z 2%Z eq_refl).
  exists 3%Z. split; [right; left|reflexivity].
Defined.

Lemma X16_path_segments_rejoin_witness :
  rejoin (path_segments [(0, 0); (1, 2); (3, 1)]%Z) = [(0, 0); (1, 2); (3, 1)]%Z.
Proof. apply X16_path_segments_rejoin. simpl. lia. Defined.

End ExtraFacts.
